(** * Monte Carlo option pricer (BaruchAdvCPP, Final_Project_P4)

    A shallow embedding of the simulation core: the stochastic models
    (SDE.cpp), the discretisation schemes (FDM.cpp), the payoff family
    (Payoff.cpp), the random source interface (RNG.hpp) and the solver
    loop (MCSolver.cpp).

    Conventions of the embedding.
    - A C++ [double] is a real number of [R]: arithmetic is exact, there
      is no rounding, no infinity and no NaN.  [std::sqrt], [std::log],
      [std::exp] are [sqrt], [ln], [exp] of the Reals library; outside
      the mathematical domain (a negative radicand, a non-positive
      logarithm argument) the library picks 0 where the C++ run time
      gives NaN or an infinity, so statements that depend on such values
      carry the domain condition.
    - A C++ [int] is an integer of [Z] (the counts stay far inside the
      range of [int]); the conversions [int -> double] that the source
      leaves implicit are written [IZR].
    - A thrown exception is the [Throw] case of [result]; the exception
      object keeps its class and its [what()] text.
    - The random generator is the only mutable object of a run.  Its
      state is threaded explicitly, and is kept when an exception
      unwinds, so that the number of draws consumed can be observed.
    - Around the core, the setters and [build()] of the builder
      (SimulationBuilder.cpp), the mediator (MCMediator.cpp) and the
      stopwatch (StopWatch.cpp, with the clock readings as arguments)
      are embedded as well.  A [std::shared_ptr] is an [option].  The
      console dialogue of the builder and the driver (main.cpp) read
      [std::cin] and are left out. *)

From Stdlib Require Import String Reals Lra Lia ZArith List Bool.
Import ListNotations.
Local Open Scope R_scope.

(** ** Exceptions and results *)

Inductive exn : Type :=
| invalid_argument (what : string)
| runtime_error (what : string).

Inductive result (A : Type) : Type :=
| Ok (a : A)
| Throw (e : exn).
Arguments Ok {A} a.
Arguments Throw {A} e.

(** The conditions the specification names, as the objects the source
    throws. *)
Definition InvalidStepSize : exn :=
  invalid_argument "Time step (dt) must be positive.".
Definition NegativeAssetPrice : exn :=
  runtime_error "Negative asset price encountered during simulation.".
Definition InvalidConfiguration : exn :=
  runtime_error "Time step (dt) must be positive.".
Definition ConstructionError : exn :=
  invalid_argument "Initial conditions (S0, T, N, M) must be positive.".

(** ** Library functions on doubles *)

(** [a <= b], [a < b] and [a >= b] on doubles, as booleans. *)
Definition Rleb (a b : R) : bool := if Rle_dec a b then true else false.
Definition Rltb (a b : R) : bool := if Rlt_dec a b then true else false.
Definition Rgeb (a b : R) : bool := Rleb b a.

(** [std::max(a, b)] is [(a < b) ? b : a]. *)
Definition std_max (a b : R) : R := if Rltb a b then b else a.

(** [std::pow(x, y)] for a positive base.  For a base [<= 0] the value
    here (1, since [ln] is 0 there) is not the library's (0, 1, an
    infinity or NaN); statements about it carry [0 < x]. *)
Definition std_pow (x y : R) : R := Rpower x y.

(** ** SDE.hpp / SDE.cpp *)

Inductive SDE : Type :=
| GBM (mu sigma : R)
| CEV (mu sigma gamma : R)
| CIR (kappa theta sigma : R).

Definition drift (sde : SDE) (S t : R) : R :=
  match sde with
  | GBM mu _ => mu * S
  | CEV mu _ _ => mu * S
  | CIR kappa theta _ => kappa * (theta - S)
  end.

Definition diffusion (sde : SDE) (S t : R) : R :=
  match sde with
  | GBM _ sigma => sigma * S
  | CEV _ sigma gamma => sigma * std_pow S gamma
  | CIR _ _ sigma => sigma * sqrt S
  end.

(** ** FDM.hpp / FDM.cpp *)

Inductive FDM : Type :=
| EulerMethod (sde : SDE)
| MilsteinMethod (sde : SDE)
| DriftAdjustedPredictorCorrector (sde : SDE).

Definition euler_advance (sde : SDE) (S t dt dW : R) : result R :=
  if Rleb dt 0 then Throw InvalidStepSize
  else Ok (S + drift sde S t * dt + diffusion sde S t * dW).

Definition milstein_advance (sde : SDE) (S t dt dW : R) : result R :=
  if Rleb dt 0 then Throw InvalidStepSize
  else
    let drift_ := drift sde S t in
    let diffusion_ := diffusion sde S t in
    let diffusionDerivative :=
      (diffusion sde (S + 1e-5) t - diffusion sde S t) / 1e-5 in
    Ok (S + drift_ * dt + diffusion_ * dW
        + 0.5 * diffusion_ * diffusionDerivative * (dW * dW - dt)).

Definition predictor_corrector_advance (sde : SDE) (S t dt dW : R)
  : result R :=
  if Rleb dt 0 then Throw InvalidStepSize
  else
    let drift_ := drift sde S t in
    let diffusion_ := diffusion sde S t in
    let S_predictor := S + drift_ * dt + diffusion_ * dW in
    let drift_corrector := drift sde S_predictor (t + dt) in
    let S_corrected :=
      S + 0.5 * (drift_ + drift_corrector) * dt + diffusion_ * dW in
    Ok S_corrected.

(** The virtual call [fdm->advance(S, t, dt, dW)]. *)
Definition advance (fdm : FDM) : R -> R -> R -> R -> result R :=
  match fdm with
  | EulerMethod sde => euler_advance sde
  | MilsteinMethod sde => milstein_advance sde
  | DriftAdjustedPredictorCorrector sde => predictor_corrector_advance sde
  end.

(** The model a scheme was constructed with (its member [sde]). *)
Definition fdm_sde (fdm : FDM) : SDE :=
  match fdm with
  | EulerMethod sde => sde
  | MilsteinMethod sde => sde
  | DriftAdjustedPredictorCorrector sde => sde
  end.

(** ** Payoff.hpp / Payoff.cpp *)

Inductive Payoff : Type :=
| EuropeanCall (K : R)
| EuropeanPut (K : R)
| BarrierOption (K B : R) (isCall isUp isIn : bool)
| AsianOption (K : R) (isCall : bool).

(** [path.back()]; the source never calls it on an empty vector (that
    would be undefined), the model answers 0 there. *)
Definition back (path : list R) : R := last path 0.

(** [BarrierOption::operator()(double S)]: the two early returns, then
    the call or put payoff. *)
Definition barrier_price (K B : R) (isCall isUp isIn : bool) (S : R) : R :=
  let isBarrierHit := if isUp then Rgeb S B else Rleb S B in
  let vanilla := if isCall then std_max (S - K) 0 else std_max (K - S) 0 in
  if isIn then
    if negb isBarrierHit then 0 else vanilla
  else
    if isBarrierHit then 0 else vanilla.

(** [operator()(double S)] *)
Definition price_payoff (p : Payoff) (S : R) : R :=
  match p with
  | EuropeanCall K => std_max (S - K) 0
  | EuropeanPut K => std_max (K - S) 0
  | BarrierOption K B isCall isUp isIn => barrier_price K B isCall isUp isIn S
  | AsianOption _ _ => 0
  end.

(** The accumulation loop of [AsianOption::operator()(path)].  For a
    price [<= 0] the term here is 0 where [std::log] gives an infinity
    or NaN; statements about the average carry positive prices. *)
Definition logSum (path : list R) : R :=
  fold_left (fun acc price => acc + ln price) path 0.

Definition geometricAverage (path : list R) : R :=
  exp (logSum path / INR (length path)).

(** [operator()(const std::vector<double>& path)] *)
Definition path_payoff (p : Payoff) (path : list R) : R :=
  match p with
  | EuropeanCall _ | EuropeanPut _ | BarrierOption _ _ _ _ _ =>
      price_payoff p (back path)
  | AsianOption K isCall =>
      if isCall then std_max (geometricAverage path - K) 0
      else std_max (K - geometricAverage path) 0
  end.

(** The vanilla option of a barrier option: same strike, same side. *)
Definition vanilla (K : R) (isCall : bool) : Payoff :=
  if isCall then EuropeanCall K else EuropeanPut K.

(** [std::dynamic_pointer_cast<AsianOption>(payoff)] is non-null. *)
Definition is_AsianOption (p : Payoff) : bool :=
  match p with
  | AsianOption _ _ => true
  | _ => false
  end.


(** ** std::vector<double> *)

(** [std::vector<double> v(n)]: [n] value-initialised elements. *)
Definition vector (n : Z) : list R := repeat 0 (Z.to_nat n).

(** [v[i] = x].  An index out of range is undefined in the source; the
    model leaves the vector as it is. *)
Fixpoint store (v : list R) (i : nat) (x : R) : list R :=
  match v, i with
  | [], _ => []
  | _ :: v', O => x :: v'
  | y :: v', Datatypes.S i' => y :: store v' i' x
  end.

(** ** RNG.hpp *)

(** The abstract class [RNG]: one virtual method [generate()], which
    returns a draw and advances the generator.  [MersenneTwister] is the
    instance whose state is a [std::mt19937] and a
    [std::normal_distribution<double>]. *)
Class RNG (G : Type) : Type := { generate : G -> R * G }.

(** A random source that plays back a recorded list of draws (0 once the
    record is exhausted); it stands for a seeded generator in the
    examples. *)
#[export] Instance Recorded : RNG (list R) :=
  {| generate g := match g with
                   | [] => (0, [])
                   | z :: g' => (z, g')
                   end |}.

(** The next [n] draws of a generator, and its state after them. *)
Fixpoint draws {G} `{RNG G} (n : nat) (g : G) : list R :=
  match n with
  | O => []
  | Datatypes.S n' => fst (generate g) :: draws n' (snd (generate g))
  end.

Fixpoint skip {G} `{RNG G} (n : nat) (g : G) : G :=
  match n with
  | O => g
  | Datatypes.S n' => skip n' (snd (generate g))
  end.

(** ** MCSolver.hpp / MCSolver.cpp *)

Module MCSolver.

(** The data members, without the generator (its state is threaded
    through [solve]). *)
Record t : Type := mk {
  sde : SDE;
  fdm : FDM;
  payoff : Payoff;
  S0 : R;
  T : R;
  N : Z;
  M : Z
}.

(** The constructor's check of the initial conditions.  The four
    component pointers are values here, hence never null. *)
Definition new (slv : t) : result t :=
  if Rleb (S0 slv) 0 || Rleb (T slv) 0 || (N slv <=? 0)%Z || (M slv <=? 0)%Z
  then Throw ConstructionError
  else Ok slv.

(** A solver object exists only if its constructor returned. *)
Definition constructed (slv : t) : Prop := new slv = Ok slv.

(** The step size [solve] derives, [dt = T / N]. *)
Definition step_size (slv : t) : R := T slv / IZR (N slv).

Section Solve.
Context {G : Type} {rng : RNG G}.

(** Computations that draw from the generator and may throw. *)
Definition Sim (A : Type) : Type := G -> result A * G.

Definition ret {A} (a : A) : Sim A := fun g => (Ok a, g).
Definition throw {A} (e : exn) : Sim A := fun g => (Throw e, g).
Definition lift {A} (r : result A) : Sim A := fun g => (r, g).
Definition bind {A B} (m : Sim A) (k : A -> Sim B) : Sim B :=
  fun g =>
    match m g with
    | (Ok a, g') => k a g'
    | (Throw e, g') => (Throw e, g')
    end.
Definition rng_generate : Sim R :=
  fun g => let (z, g') := generate g in (Ok z, g').

Notation "x <- m ;; k" := (bind m (fun x => k))
  (at level 61, m at next level, right associativity).

(** The loop [for (int j = 0; j < N; ++j)], entered at index [j] with
    [n] iterations left. *)
Fixpoint steps (slv : t) (dt : R) (n : nat) (j : Z) (S : R) (path : list R)
  : Sim (R * list R) :=
  match n with
  | O => ret (S, path)
  | Datatypes.S n' =>
      z <- rng_generate ;;
      let dW := sqrt dt * z in
      S' <- lift (advance (fdm slv) S (IZR j * dt) dt dW) ;;
      if Rltb S' 0 then throw NegativeAssetPrice
      else steps slv dt n' (j + 1)%Z S' (store path (Z.to_nat (j + 1)) S')
  end.

(** One iteration of the loop over simulations, up to the inner loop:
    the final price and the filled path. *)
Definition simulate_path (slv : t) (dt : R) : Sim (R * list R) :=
  let S := S0 slv in
  let path := vector (N slv + 1) in
  let path := store path 0 (S0 slv) in
  steps slv dt (Z.to_nat (N slv)) 0 S path.

(** The payoff of one simulation: the [dynamic_pointer_cast] branch. *)
Definition simulation_payoff (slv : t) (dt : R) : Sim R :=
  Sp <- simulate_path slv dt ;;
  let (S, path) := (Sp : R * list R) in
  if is_AsianOption (payoff slv) then ret (path_payoff (payoff slv) path)
  else ret (price_payoff (payoff slv) S).

(** The loop [for (int i = 0; i < M; ++i)], entered at index [i] with
    [n] iterations left. *)
Fixpoint simulations (slv : t) (dt : R) (n : nat) (i : Z) (sum : R) : Sim R :=
  match n with
  | O => ret sum
  | Datatypes.S n' =>
      v <- simulation_payoff slv dt ;;
      simulations slv dt n' (i + 1)%Z (sum + v)
  end.

Definition solve (slv : t) : Sim R :=
  let dt := T slv / IZR (N slv) in
  if Rleb dt 0 then throw InvalidConfiguration
  else
    sum <- simulations slv dt (Z.to_nat (M slv)) 0 0 ;;
    ret (sum / IZR (M slv)).

(** *** The course of a run *)

(** [Reach slv g0 i j S g]: the run of [solve] that starts with the
    generator in state [g0] arrives at the head of the step loop of
    simulation [i] with step index [j], price [S] and generator state
    [g].  A step whose advanced price is negative leads nowhere. *)
Inductive Reach (slv : t) (g0 : G) : Z -> Z -> R -> G -> Prop :=
| reach_start :
    Reach slv g0 0 0 (S0 slv) g0
| reach_step i j S g S' :
    Reach slv g0 i j S g ->
    (j < N slv)%Z ->
    advance (fdm slv) S (IZR j * step_size slv) (step_size slv)
      (sqrt (step_size slv) * fst (generate g)) = Ok S' ->
    0 <= S' ->
    Reach slv g0 i (j + 1) S' (snd (generate g))
| reach_next i S g :
    Reach slv g0 i (N slv) S g ->
    (i + 1 < M slv)%Z ->
    Reach slv g0 (i + 1) 0 (S0 slv) g.

(** A step of the run whose advanced price is negative, and the
    generator state right after the draw of that step. *)
Definition negative_step (slv : t) (g0 g' : G) : Prop :=
  exists i j S g S',
    Reach slv g0 i j S g /\ (j < N slv)%Z /\
    advance (fdm slv) S (IZR j * step_size slv) (step_size slv)
      (sqrt (step_size slv) * fst (generate g)) = Ok S' /\
    S' < 0 /\ g' = snd (generate g).

(** What [solve] still does once a step loop has ended: the payoff of
    that simulation, the remaining [m] simulations, the average. *)
Definition after_steps (slv : t) (m : nat) (i : Z) (sum : R)
  (r : result (R * list R) * G) : result R * G :=
  match r with
  | (Ok (S_N, path), g') =>
      let v := if is_AsianOption (payoff slv)
               then path_payoff (payoff slv) path
               else price_payoff (payoff slv) S_N in
      match simulations slv (step_size slv) m (i + 1)%Z (sum + v) g' with
      | (Ok s, g'') => (Ok (s / IZR (M slv)), g'')
      | (Throw e, g'') => (Throw e, g'')
      end
  | (Throw e, g') => (Throw e, g')
  end.

End Solve.
End MCSolver.

(** ** Closed forms for a model without volatility *)

(** The factor one step of a scheme multiplies the price by when the
    model is [GBM mu 0]. *)
Definition one_step_growth (fdm : FDM) (mu dt : R) : R :=
  match fdm with
  | EulerMethod _ | MilsteinMethod _ => 1 + mu * dt
  | DriftAdjustedPredictorCorrector _ => 1 + mu * dt + (mu * dt) ^ 2 / 2
  end.

(** One step of a scheme on [GBM mu 0], as the scheme computes it once
    the terms that carry the factor [sigma = 0] are left out (each of
    them is zero): the drift step of Euler and Milstein, the corrected
    drift step of the predictor-corrector. *)
Definition zero_vol_step (fdm : FDM) (mu dt S : R) : R :=
  match fdm with
  | EulerMethod _ | MilsteinMethod _ => S + mu * S * dt
  | DriftAdjustedPredictorCorrector _ =>
      S + 0.5 * (mu * S + mu * (S + mu * S * dt)) * dt
  end.

(** The price after [k] such steps from [S0]. *)
Definition zero_vol_state (fdm : FDM) (mu dt S0 : R) (k : nat) : R :=
  Nat.iter k (zero_vol_step fdm mu dt) S0.

(** The path the specification states for that model,
    [S(t) = S0 * e^(mu * t)]. *)
Definition continuous_growth (S0 mu t : R) : R := S0 * exp (mu * t).

(** ** Scenarios *)

(** The Euler scenario of the demonstration driver (GBM with rate 0.05
    and volatility 0.2, initial price 100, maturity 1), cut down to two
    steps and one simulation. *)
Definition demo (p : Payoff) : MCSolver.t :=
  MCSolver.mk (GBM 0.05 0.2) (EulerMethod (GBM 0.05 0.2)) p 100 1 2 1.

(** A mean-reverting model whose first Euler step overshoots zero. *)
Definition overshoot : MCSolver.t :=
  MCSolver.mk (CIR 2 0 1) (EulerMethod (CIR 2 0 1)) (EuropeanCall 1) 1 1 1 2.

(** A model without volatility, one step of length 1. *)
Definition zero_vol (scheme : SDE -> FDM) (mu : R) : MCSolver.t :=
  MCSolver.mk (GBM mu 0) (scheme (GBM mu 0)) (EuropeanCall 1) 1 1 1 1.

(** The three ways to build a scheme on a model. *)
Definition schemes : list (SDE -> FDM) :=
  [EulerMethod; MilsteinMethod; DriftAdjustedPredictorCorrector].

(** ** Variations of a solver *)

(** The same solver with another model in its [sde] member, with
    another payoff. *)
Definition with_sde (slv : MCSolver.t) (sde : SDE) : MCSolver.t :=
  MCSolver.mk sde (MCSolver.fdm slv) (MCSolver.payoff slv)
    (MCSolver.S0 slv) (MCSolver.T slv) (MCSolver.N slv) (MCSolver.M slv).

Definition with_payoff (slv : MCSolver.t) (p : Payoff) : MCSolver.t :=
  MCSolver.mk (MCSolver.sde slv) (MCSolver.fdm slv) p
    (MCSolver.S0 slv) (MCSolver.T slv) (MCSolver.N slv) (MCSolver.M slv).

(** The strike of a payoff of the put kind. *)
Definition put_strike (p : Payoff) : option R :=
  match p with
  | EuropeanPut K => Some K
  | BarrierOption K _ false _ _ => Some K
  | AsianOption K false => Some K
  | _ => None
  end.

(** ** SimulationBuilder.hpp / SimulationBuilder.cpp *)

(** A [std::shared_ptr] is an [option]: [None] is the null pointer. *)
Definition is_null {A : Type} (p : option A) : bool :=
  match p with
  | None => true
  | Some _ => false
  end.

(** The tuple [build()] returns and the constructor of [MCSolver]
    takes.  The component behind the [RNG] pointer is the generator. *)
Definition config (G : Type) : Type :=
  (option SDE * option FDM * option G * option Payoff * R * R * Z * Z)%type.

Module SimulationBuilder.
Section Builder.
Context {G : Type}.

Record t : Type := mk {
  sde : option SDE;
  fdm : option FDM;
  rng : option G;
  payoff : option Payoff;
  S0 : R;
  T : R;
  N : Z;
  M : Z
}.

(** The default constructor. *)
Definition new : t := mk None None None None 0 0 0 0.

(** The setters.  Each one checks before it assigns, so a setter that
    throws leaves the builder as it was; one that returns gives the
    builder back for chaining. *)
Definition setSDE (b : t) (s : option SDE) : result t :=
  if is_null s then Throw (invalid_argument "SDE pointer is null.")
  else Ok (mk s (fdm b) (rng b) (payoff b) (S0 b) (T b) (N b) (M b)).

Definition setFDM (b : t) (f : option FDM) : result t :=
  if is_null f then Throw (invalid_argument "FDM pointer is null.")
  else Ok (mk (sde b) f (rng b) (payoff b) (S0 b) (T b) (N b) (M b)).

Definition setRNG (b : t) (r : option G) : result t :=
  if is_null r then Throw (invalid_argument "RNG pointer is null.")
  else Ok (mk (sde b) (fdm b) r (payoff b) (S0 b) (T b) (N b) (M b)).

Definition setPayoff (b : t) (p : option Payoff) : result t :=
  if is_null p then Throw (invalid_argument "Payoff pointer is null.")
  else Ok (mk (sde b) (fdm b) (rng b) p (S0 b) (T b) (N b) (M b)).

Definition setInitialCondition (b : t) (s0 t_ : R) (n m : Z) : result t :=
  if Rleb s0 0 || Rleb t_ 0 || (n <=? 0)%Z || (m <=? 0)%Z
  then Throw (invalid_argument
                "Initial conditions (S0, T, N, M) must be positive.")
  else Ok (mk (sde b) (fdm b) (rng b) (payoff b) s0 t_ n m).

Definition build (b : t) : result (config G) :=
  if is_null (sde b) || is_null (fdm b) || is_null (rng b)
     || is_null (payoff b)
  then Throw (runtime_error
                "One or more components (SDE, FDM, RNG, Payoff) are not set.")
  else if Rleb (S0 b) 0 || Rleb (T b) 0 || (N b <=? 0)%Z || (M b <=? 0)%Z
  then Throw (runtime_error
                "Initial conditions (S0, T, N, M) must be positive.")
  else Ok (sde b, fdm b, rng b, payoff b, S0 b, T b, N b, M b).

(** The initial conditions of a builder are all positive. *)
Definition conditions_set (b : t) : Prop :=
  0 < S0 b /\ 0 < T b /\ (0 < N b)%Z /\ (0 < M b)%Z.

(** A call of one of the setters. *)
Inductive call : Type :=
| call_setSDE (s : option SDE)
| call_setFDM (f : option FDM)
| call_setRNG (r : option G)
| call_setPayoff (p : option Payoff)
| call_setInitialCondition (s0 t_ : R) (n m : Z).

Definition do_call (b : t) (c : call) : result t :=
  match c with
  | call_setSDE s => setSDE b s
  | call_setFDM f => setFDM b f
  | call_setRNG r => setRNG b r
  | call_setPayoff p => setPayoff b p
  | call_setInitialCondition s0 t_ n m => setInitialCondition b s0 t_ n m
  end.

(** The builder after a sequence of setter calls whose exceptions the
    caller catches: a call that throws changes nothing. *)
Fixpoint after_calls (b : t) (cs : list call) : t :=
  match cs with
  | [] => b
  | c :: cs' =>
      match do_call b c with
      | Ok b' => after_calls b' cs'
      | Throw _ => after_calls b cs'
      end
  end.

End Builder.
End SimulationBuilder.

(** ** The constructor of MCSolver, on the tuple *)

(** [MCSolver::MCSolver(config)]: the null check, then the check of the
    initial conditions ([MCSolver.new]).  The object made is the record
    together with its generator. *)
Definition MCSolver_ctor {G : Type} (cfg : config G)
  : result (MCSolver.t * G) :=
  let '(sde, fdm, rng, payoff, S0, T, N, M) := cfg in
  match sde, fdm, rng, payoff with
  | Some sde, Some fdm, Some rng, Some payoff =>
      match MCSolver.new (MCSolver.mk sde fdm payoff S0 T N M) with
      | Ok slv => Ok (slv, rng)
      | Throw e => Throw e
      end
  | _, _, _, _ =>
      Throw (invalid_argument
               "One or more components (SDE, FDM, RNG, Payoff) are null.")
  end.

(** ** MCMediator.hpp / MCMediator.cpp *)

Module MCMediator.
Section Mediator.
Context {G : Type} {rng : RNG G}.

(** The mediator owns the solver; the solver's generator is the mutable
    part. *)
Record t : Type := mk {
  solver : MCSolver.t;
  generator : G
}.

Definition new (builder : @SimulationBuilder.t G) : result t :=
  match SimulationBuilder.build builder with
  | Ok cfg =>
      match MCSolver_ctor cfg with
      | Ok (slv, g) => Ok (mk slv g)
      | Throw e => Throw e
      end
  | Throw e => Throw e
  end.

Definition runSimulation (m : t) : result R * t :=
  let (r, g') := MCSolver.solve (solver m) (generator m) in
  (r, mk (solver m) g').

End Mediator.
End MCMediator.

(** ** StopWatch.hpp / StopWatch.cpp *)

Module StopWatch.
Section Clock.

(** A [steady_clock::time_point] is its count of ticks; [time_min] is
    [time_point::min()] and [period] the length of a tick in seconds.
    The readings of [steady_clock::now()] are arguments. *)
Variable time_min : Z.
Variable period : R.

Record t : Type := mk {
  startTime : Z;
  endTime : Z
}.

Definition new : t := mk time_min time_min.

Definition StartStopWatch (w : t) (now : Z) : t := mk now time_min.

Definition StopStopWatch (w : t) (now : Z) : t := mk (startTime w) now.

Definition Reset (w : t) : t := mk time_min time_min.

Definition GetTime (w : t) : R :=
  if (startTime w =? time_min)%Z || (endTime w =? time_min)%Z then 0
  else IZR (endTime w - startTime w) * period.

(** A call of one of the mutating methods, with the clock reading it
    takes. *)
Inductive call : Type :=
| call_Start (now : Z)
| call_Stop (now : Z)
| call_Reset.

Definition do_call (w : t) (c : call) : t :=
  match c with
  | call_Start now => StartStopWatch w now
  | call_Stop now => StopStopWatch w now
  | call_Reset => Reset w
  end.

(** The stopwatch after a sequence of calls. *)
Definition after_calls (w : t) (cs : list call) : t :=
  fold_left do_call cs w.

(** The clock readings a sequence of calls takes, in order. *)
Fixpoint readings (cs : list call) : list Z :=
  match cs with
  | [] => []
  | call_Start now :: cs' => now :: readings cs'
  | call_Stop now :: cs' => now :: readings cs'
  | call_Reset :: cs' => readings cs'
  end.

(** A steady clock: after the reading [last] the readings never
    decrease, and none is [time_point::min()]. *)
Fixpoint steady (last : Z) (rs : list Z) : Prop :=
  match rs with
  | [] => True
  | r :: rs' => (time_min < r)%Z /\ (last <= r)%Z /\ steady r rs'
  end.

End Clock.
End StopWatch.

(** * Properties *)

(** ** Comparisons and [std::max] *)

Lemma Rleb_true (a b : R) : Rleb a b = true <-> a <= b.
Proof. unfold Rleb. destruct (Rle_dec a b); split; intros; try easy. Qed.

Lemma Rleb_false (a b : R) : Rleb a b = false <-> b < a.
Proof.
  unfold Rleb. destruct (Rle_dec a b); split; intros; try easy; lra.
Qed.

Lemma Rltb_true (a b : R) : Rltb a b = true <-> a < b.
Proof. unfold Rltb. destruct (Rlt_dec a b); split; intros; try easy. Qed.

Lemma Rltb_false (a b : R) : Rltb a b = false <-> b <= a.
Proof.
  unfold Rltb. destruct (Rlt_dec a b); split; intros; try easy; lra.
Qed.

(** Decide every comparison in sight, keeping the facts. *)
Ltac cmp :=
  unfold Rgeb in *;
  repeat match goal with
  | |- context [Rleb ?a ?b] =>
      let E := fresh "E" in
      destruct (Rleb a b) eqn:E;
      [apply Rleb_true in E | apply Rleb_false in E]
  | |- context [Rltb ?a ?b] =>
      let E := fresh "E" in
      destruct (Rltb a b) eqn:E;
      [apply Rltb_true in E | apply Rltb_false in E]
  end.

Lemma std_max_Rmax (a b : R) : std_max a b = Rmax a b.
Proof.
  unfold std_max, Rmax. cmp; destruct (Rle_dec a b); lra.
Qed.

Lemma std_max_nonneg (a : R) : 0 <= std_max a 0.
Proof. unfold std_max. cmp; lra. Qed.

(** ** Schemes *)

(** C7.  Every scheme rejects a step size [dt <= 0] with
    [InvalidStepSize], whatever the other arguments (so at every call),
    and computes a next state when [dt > 0]. *)
Theorem advance_checks_step_size (fdm : FDM) (S t dt dW : R) :
  (dt <= 0 -> advance fdm S t dt dW = Throw InvalidStepSize) /\
  (0 < dt -> exists S', advance fdm S t dt dW = Ok S').
Proof.
  split; intros Hdt; destruct fdm; simpl;
    unfold euler_advance, milstein_advance, predictor_corrector_advance;
    cmp; try lra; try reflexivity; eexists; reflexivity.
Qed.

Lemma advance_checks_step_size_witness :
  advance (MilsteinMethod (GBM 0.05 0.2)) 100 0 0 1 = Throw InvalidStepSize /\
  exists S', advance (EulerMethod (CIR 0.1 0.2 0.3)) 100 0 (1 / 500) 1 = Ok S'.
Proof.
  split.
  - apply (advance_checks_step_size (MilsteinMethod (GBM 0.05 0.2))). lra.
  - apply (advance_checks_step_size (EulerMethod (CIR 0.1 0.2 0.3))). lra.
Defined.

(** C3.  For [dt > 0] the predictor-corrector scheme returns the state
    corrected with the averaged drift at [(S, t)] and at the Euler
    predictor [(S_pred, t + dt)]; its diffusion term is
    [diffusion(S, t) * dW], the diffusion at the original state. *)
Theorem predictor_corrector_formula (sde : SDE) (S t dt dW : R) :
  0 < dt ->
  let S_pred := S + drift sde S t * dt + diffusion sde S t * dW in
  advance (DriftAdjustedPredictorCorrector sde) S t dt dW =
  Ok (S + 0.5 * (drift sde S t + drift sde S_pred (t + dt)) * dt
      + diffusion sde S t * dW).
Proof.
  intros Hdt S_pred. simpl. unfold predictor_corrector_advance.
  cmp; [lra | reflexivity].
Qed.

Lemma predictor_corrector_formula_witness :
  advance (DriftAdjustedPredictorCorrector (GBM 1 1)) 1 0 1 1 = Ok 4.
Proof.
  rewrite (predictor_corrector_formula (GBM 1 1) 1 0 1 1) by lra.
  cbv [drift diffusion]. f_equal. lra.
Defined.

(** C4.  For [dt > 0] the Milstein scheme returns the Euler step plus
    [0.5 * diffusion * diffDeriv * (dW^2 - dt)], with [diffDeriv] the
    forward difference of the diffusion over [h = 1e-5]. *)
Theorem milstein_formula (sde : SDE) (S t dt dW : R) :
  0 < dt ->
  let diffDeriv := (diffusion sde (S + 1e-5) t - diffusion sde S t) / 1e-5 in
  advance (MilsteinMethod sde) S t dt dW =
  Ok (S + drift sde S t * dt + diffusion sde S t * dW
      + 0.5 * diffusion sde S t * diffDeriv * (dW * dW - dt)).
Proof.
  intros Hdt diffDeriv. simpl. unfold milstein_advance.
  cmp; [lra | reflexivity].
Qed.

Lemma milstein_formula_witness :
  advance (MilsteinMethod (GBM 1 1)) 1 0 1 2 = Ok 5.5.
Proof.
  rewrite (milstein_formula (GBM 1 1) 1 0 1 2) by lra.
  cbv [drift diffusion]. f_equal. lra.
Defined.

(** ** Payoffs *)

Lemma price_payoff_nonneg (p : Payoff) (S : R) : 0 <= price_payoff p S.
Proof.
  destruct p as [K | K | K B isCall isUp isIn | K isCall]; simpl;
    try apply std_max_nonneg; try lra.
  unfold barrier_price.
  destruct isIn, isUp, isCall; simpl; cmp; simpl;
    try apply std_max_nonneg; lra.
Qed.

Lemma path_payoff_nonneg (p : Payoff) (path : list R) :
  0 <= path_payoff p path.
Proof.
  destruct p as [K | K | K B isCall isUp isIn | K isCall];
    try apply price_payoff_nonneg.
  simpl. destruct isCall; apply std_max_nonneg.
Qed.

Lemma barrier_in_out (K B : R) (isCall isUp : bool) (S : R) :
  barrier_price K B isCall isUp true S + barrier_price K B isCall isUp false S
  = price_payoff (vanilla K isCall) S.
Proof.
  unfold barrier_price, vanilla.
  destruct isUp, isCall; simpl; cmp; simpl; lra.
Qed.

(** C5.  On one and the same path, the knock-in and the knock-out
    barrier payoffs with equal [(K, B, isCall, isUp)] add up to the
    vanilla European payoff on that path, which is [max(S - K, 0)] for a
    call and [max(K - S, 0)] for a put, [S] being the price the path
    ends in.  The identity holds path by path; no average is involved. *)
Theorem barrier_in_plus_out_is_vanilla
  (K B : R) (isCall isUp : bool) (path : list R) :
  path <> [] ->
  path_payoff (BarrierOption K B isCall isUp true) path
  + path_payoff (BarrierOption K B isCall isUp false) path
  = path_payoff (vanilla K isCall) path
  /\ path_payoff (vanilla K isCall) path
     = (if isCall then Rmax (back path - K) 0 else Rmax (K - back path) 0).
Proof.
  intros _. split.
  - replace (path_payoff (vanilla K isCall) path)
      with (price_payoff (vanilla K isCall) (back path))
      by (destruct isCall; reflexivity).
    simpl. apply barrier_in_out.
  - destruct isCall; simpl; apply std_max_Rmax.
Qed.

Lemma barrier_in_plus_out_is_vanilla_witness :
  path_payoff (BarrierOption 100 110 true true true) [100; 120; 105]
  + path_payoff (BarrierOption 100 110 true true false) [100; 120; 105]
  = path_payoff (vanilla 100 true) [100; 120; 105]
  /\ path_payoff (vanilla 100 true) [100; 120; 105]
     = Rmax (back [100; 120; 105] - 100) 0.
Proof.
  apply (barrier_in_plus_out_is_vanilla 100 110 true true [100; 120; 105]).
  discriminate.
Defined.

(** C9.  The path form of a barrier option is its terminal-value form
    at the last element of the path: a non-empty path is some prices
    [pre] followed by a last price [S], its payoff is the terminal-value
    payoff at [S], and replacing [pre] by any other prices leaves the
    payoff as it is.  The barrier is watched at maturity only. *)
Theorem barrier_monitored_at_maturity_only
  (K B : R) (isCall isUp isIn : bool) (path : list R) :
  path <> [] ->
  exists (pre : list R) (S : R),
    path = pre ++ [S] /\
    back path = S /\
    path_payoff (BarrierOption K B isCall isUp isIn) path
    = price_payoff (BarrierOption K B isCall isUp isIn) S /\
    forall pre' : list R,
      path_payoff (BarrierOption K B isCall isUp isIn) (pre' ++ [S])
      = path_payoff (BarrierOption K B isCall isUp isIn) path.
Proof.
  intros Hne. destruct (exists_last Hne) as (pre & S & ->).
  assert (Hb : forall l, back (l ++ [S]) = S).
  { intros l. unfold back. apply last_last. }
  exists pre, S. split; [reflexivity |]. split; [apply Hb |].
  split; [| intros pre']; simpl; now rewrite !Hb.
Qed.

Lemma barrier_monitored_at_maturity_only_witness :
  exists (pre : list R) (S : R),
    [100; 120; 105] = pre ++ [S] /\
    back [100; 120; 105] = S /\
    path_payoff (BarrierOption 100 110 true true false) [100; 120; 105]
    = price_payoff (BarrierOption 100 110 true true false) S /\
    forall pre' : list R,
      path_payoff (BarrierOption 100 110 true true false) (pre' ++ [S])
      = path_payoff (BarrierOption 100 110 true true false) [100; 120; 105].
Proof.
  apply (barrier_monitored_at_maturity_only 100 110 true true false
           [100; 120; 105]).
  discriminate.
Defined.

(** An up-and-out call with barrier 110: a path that trades at 120 on
    the way and ends at 105 is not knocked out. *)
Example barrier_crossed_on_the_way :
  path_payoff (BarrierOption 100 110 true true false) [100; 120; 105] = 5.
Proof.
  simpl. unfold back, barrier_price, std_max. simpl. cmp; simpl; lra.
Qed.

(** ** Vectors *)

Lemma store_length (v : list R) (i : nat) (x : R) :
  length (store v i x) = length v.
Proof.
  revert i. induction v as [| y v IH]; intros [| i]; simpl; auto.
Qed.

Lemma nth_store_eq (v : list R) (i : nat) (x d : R) :
  (i < length v)%nat -> nth i (store v i x) d = x.
Proof.
  revert i. induction v as [| y v IH]; intros [| i] Hi; simpl in *;
    try lia; auto. apply IH. lia.
Qed.

Lemma nth_store_neq (v : list R) (i k : nat) (x d : R) :
  i <> k -> nth k (store v i x) d = nth k v d.
Proof.
  revert i k. induction v as [| y v IH]; intros [| i] [| k] Hik; simpl;
    try reflexivity; try lia. apply IH. lia.
Qed.

Lemma vector_length (n : Z) : length (vector n) = Z.to_nat n.
Proof. apply repeat_length. Qed.

(** ** The solver *)

Section SolveFacts.
Context {G : Type} {rng : RNG G}.
Import MCSolver.

Lemma constructed_positive (slv : t) :
  constructed slv ->
  0 < S0 slv /\ 0 < T slv /\ (0 < N slv)%Z /\ (0 < M slv)%Z.
Proof.
  unfold constructed, new. intros H.
  destruct (Rleb (S0 slv) 0) eqn:E1; [discriminate |].
  destruct (Rleb (T slv) 0) eqn:E2; [discriminate |].
  destruct (N slv <=? 0)%Z eqn:E3; [discriminate |].
  destruct (M slv <=? 0)%Z eqn:E4; [discriminate |].
  apply Rleb_false in E1, E2. apply Z.leb_gt in E3, E4. auto.
Qed.

Lemma constructed_dt (slv : t) :
  constructed slv -> 0 < step_size slv.
Proof.
  intros H. destruct (constructed_positive slv H) as (_ & HT & HN & _).
  apply Rdiv_lt_0_compat; [assumption |]. now apply IZR_lt.
Qed.

(** *** Unfolding the loops *)

Lemma steps_S (slv : t) (dt : R) (n : nat) (j : Z) (S : R) (path : list R)
  (g : G) :
  steps slv dt (Datatypes.S n) j S path g =
  match advance (fdm slv) S (IZR j * dt) dt (sqrt dt * fst (generate g)) with
  | Ok S' =>
      if Rltb S' 0 then (Throw NegativeAssetPrice, snd (generate g))
      else steps slv dt n (j + 1)%Z S' (store path (Z.to_nat (j + 1)) S')
             (snd (generate g))
  | Throw e => (Throw e, snd (generate g))
  end.
Proof.
  simpl. unfold bind, rng_generate, lift.
  destruct (generate g) as [z g1]. simpl.
  destruct (advance _ _ _ _ _); [| reflexivity].
  destruct (Rltb _ _); reflexivity.
Qed.

Lemma simulation_payoff_eq (slv : t) (dt : R) (g : G) :
  simulation_payoff slv dt g =
  match simulate_path slv dt g with
  | (Ok (S_N, path), g') =>
      (Ok (if is_AsianOption (payoff slv) then path_payoff (payoff slv) path
           else price_payoff (payoff slv) S_N), g')
  | (Throw e, g') => (Throw e, g')
  end.
Proof.
  unfold simulation_payoff, bind.
  destruct (simulate_path slv dt g) as [[[S path] | e] g']; [| reflexivity].
  destruct (is_AsianOption _); reflexivity.
Qed.

Lemma simulations_S (slv : t) (dt : R) (n : nat) (i : Z) (sum : R) (g : G) :
  simulations slv dt (Datatypes.S n) i sum g =
  match simulation_payoff slv dt g with
  | (Ok v, g') => simulations slv dt n (i + 1)%Z (sum + v) g'
  | (Throw e, g') => (Throw e, g')
  end.
Proof. reflexivity. Qed.

Lemma solve_eq (slv : t) (g : G) :
  constructed slv ->
  solve slv g =
  match simulations slv (step_size slv) (Z.to_nat (M slv)) 0 0 g with
  | (Ok sum, g') => (Ok (sum / IZR (M slv)), g')
  | (Throw e, g') => (Throw e, g')
  end.
Proof.
  intros H. pose proof (constructed_dt slv H) as Hdt.
  unfold solve. fold (step_size slv). cmp; [lra | reflexivity].
Qed.

(** *** The path buffer *)

(** What a completed run of the step loop leaves in the buffer: the
    entries up to the entry index are untouched, and the entry [j + n]
    holds the final price. *)
Lemma steps_buffer (slv : t) (dt : R) (n : nat) :
  forall (j : Z) (S : R) (path : list R) (g : G) S' path' g',
    steps slv dt n j S path g = (Ok (S', path'), g') ->
    (0 <= j)%Z ->
    length path' = length path /\
    (forall k, (k <= Z.to_nat j)%nat -> nth k path' 0 = nth k path 0) /\
    ((Z.to_nat j + n < length path)%nat ->
     nth (Z.to_nat j) path 0 = S ->
     nth (Z.to_nat j + n) path' 0 = S').
Proof.
  induction n as [| n IH]; intros j S path g S' path' g' Hrun Hj.
  - simpl in Hrun. unfold ret in Hrun. injection Hrun as <- <- <-.
    repeat split; auto. intros _ <-. f_equal. lia.
  - rewrite steps_S in Hrun.
    destruct (advance _ _ _ _ _) as [S1 | e]; [| discriminate].
    destruct (Rltb S1 0); [discriminate |].
    apply IH in Hrun; [| lia]. destruct Hrun as (Hlen & Hlow & Hlast).
    rewrite store_length in *.
    replace (Z.to_nat (j + 1)) with (Datatypes.S (Z.to_nat j)) in * by lia.
    repeat split.
    + assumption.
    + intros k Hk. rewrite Hlow by lia. apply nth_store_neq. lia.
    + intros Hin _.
      replace (Z.to_nat j + Datatypes.S n)%nat
        with (Datatypes.S (Z.to_nat j) + n)%nat by lia.
      apply Hlast; [lia |]. apply nth_store_eq. lia.
Qed.

(** C1.  In a constructed solver the payoff of a simulation is taken
    on the whole path of [N + 1] points (from [S0] to the final price)
    when the payoff is an [AsianOption], and on the terminal value
    [path[N]] alone for [EuropeanCall], [EuropeanPut] and
    [BarrierOption]. *)
Theorem payoff_dispatch (slv : t) (g : G) (S : R) (path : list R) (g' : G) :
  constructed slv ->
  simulate_path slv (step_size slv) g = (Ok (S, path), g') ->
  length path = Z.to_nat (N slv + 1) /\
  nth 0 path 0 = S0 slv /\
  nth (Z.to_nat (N slv)) path 0 = S /\
  simulation_payoff slv (step_size slv) g =
  (Ok match payoff slv with
      | AsianOption _ _ => path_payoff (payoff slv) path
      | EuropeanCall _ | EuropeanPut _ | BarrierOption _ _ _ _ _ =>
          price_payoff (payoff slv) (nth (Z.to_nat (N slv)) path 0)
      end, g').
Proof.
  intros Hc Hrun.
  destruct (constructed_positive slv Hc) as (_ & _ & HN & _).
  pose proof Hrun as Hbuf. unfold simulate_path in Hbuf.
  apply steps_buffer in Hbuf; [| lia].
  rewrite store_length, vector_length in Hbuf.
  destruct Hbuf as (Hlen & Hlow & Hlast).
  assert (H0 : nth 0 (store (vector (N slv + 1)) 0 (S0 slv)) 0 = S0 slv).
  { apply nth_store_eq. rewrite vector_length. lia. }
  assert (HS : nth (Z.to_nat (N slv)) path 0 = S).
  { apply (Hlast ltac:(simpl; lia) H0). }
  repeat split; auto.
  - rewrite Hlow by (simpl; lia). exact H0.
  - rewrite simulation_payoff_eq, Hrun, HS.
    destruct (payoff slv); reflexivity.
Qed.

End SolveFacts.

(** ** Draws *)

Lemma app_same_length {A : Type} (a c b d : list A) :
  length a = length c -> a ++ b = c ++ d -> a = c /\ b = d.
Proof.
  revert c. induction a as [| x a IH]; intros [| y c] Hlen Heq;
    simpl in *; try discriminate; auto.
  injection Heq as -> Heq. injection Hlen as Hlen.
  destruct (IH c Hlen Heq) as [-> ->]. auto.
Qed.

Section Draws.
Context {G : Type} {rng : RNG G}.

Lemma draws_length (n : nat) (g : G) : length (draws n g) = n.
Proof. revert g. induction n; intros g; simpl; auto. Qed.

Lemma draws_add (a b : nat) (g : G) :
  draws (a + b) g = draws a g ++ draws b (skip a g).
Proof.
  revert g. induction a as [| a IH]; intros g; simpl; [reflexivity |].
  now rewrite IH.
Qed.

Lemma skip_add (a b : nat) (g : G) : skip (a + b) g = skip b (skip a g).
Proof. revert g. induction a as [| a IH]; intros g; simpl; auto. Qed.

End Draws.

(** ** One run reads the generator in path-then-step order *)

Section Consumption.
Context {G : Type} {rng : RNG G}.
Import MCSolver.

(** A completed step loop has consumed one draw per step. *)
Lemma steps_state (slv : t) (dt : R) (n : nat) :
  forall (j : Z) (S : R) (path : list R) (g : G) x g',
    steps slv dt n j S path g = (Ok x, g') -> g' = skip n g.
Proof.
  induction n as [| n IH]; intros j S path g x g' Hrun.
  - simpl in Hrun. unfold ret in Hrun. now injection Hrun as _ <-.
  - rewrite steps_S in Hrun.
    destruct (advance _ _ _ _ _) as [S1 | e]; [| discriminate].
    destruct (Rltb S1 0); [discriminate |].
    apply IH in Hrun. exact Hrun.
Qed.

Lemma simulation_payoff_state (slv : t) (dt : R) (g : G) v g' :
  simulation_payoff slv dt g = (Ok v, g') ->
  g' = skip (Z.to_nat (N slv)) g.
Proof.
  rewrite simulation_payoff_eq.
  destruct (simulate_path slv dt g) as [[[S_N path] | e] g1] eqn:E;
    [| discriminate].
  intros H. injection H as _ <-.
  unfold simulate_path in E. now apply steps_state in E.
Qed.

Lemma simulations_state (slv : t) (dt : R) (n : nat) :
  forall (i : Z) (sum : R) (g : G) v g',
    simulations slv dt n i sum g = (Ok v, g') ->
    g' = skip (n * Z.to_nat (N slv)) g.
Proof.
  induction n as [| n IH]; intros i sum g v g' Hrun.
  - simpl in Hrun. unfold ret in Hrun. now injection Hrun as _ <-.
  - rewrite simulations_S in Hrun.
    destruct (simulation_payoff slv dt g) as [[v1 | e] g1] eqn:E;
      [| discriminate].
    apply simulation_payoff_state in E. apply IH in Hrun.
    simpl. rewrite skip_add. now subst.
Qed.

End Consumption.

Section Determinism.
Context {G1 G2 : Type} {rng1 : RNG G1} {rng2 : RNG G2}.
Import MCSolver.

Lemma steps_draws (slv : t) (dt : R) (n : nat) :
  forall (j : Z) (S : R) (path : list R) (g1 : G1) (g2 : G2),
    draws n g1 = draws n g2 ->
    fst (steps slv dt n j S path g1) = fst (steps slv dt n j S path g2).
Proof.
  induction n as [| n IH]; intros j S path g1 g2 Hd; [reflexivity |].
  rewrite !steps_S. simpl in Hd. injection Hd as Hz Hd. rewrite Hz.
  destruct (advance _ _ _ _ _) as [S1 | e]; [| reflexivity].
  destruct (Rltb S1 0); [reflexivity |]. now apply IH.
Qed.

Lemma simulation_payoff_draws (slv : t) (dt : R) (g1 : G1) (g2 : G2) :
  draws (Z.to_nat (N slv)) g1 = draws (Z.to_nat (N slv)) g2 ->
  fst (simulation_payoff slv dt g1) = fst (simulation_payoff slv dt g2).
Proof.
  intros Hd. rewrite !simulation_payoff_eq.
  pose proof (steps_draws slv dt _ 0%Z (S0 slv)
                (store (vector (N slv + 1)) 0 (S0 slv)) g1 g2 Hd) as H.
  fold (simulate_path slv dt g1) in H. fold (simulate_path slv dt g2) in H.
  destruct (simulate_path slv dt g1) as [[[Sa pa] | ea] ga];
    destruct (simulate_path slv dt g2) as [[[Sb pb] | eb] gb];
    simpl in H; try discriminate; injection H as H; subst; reflexivity.
Qed.

Lemma simulations_draws (slv : t) (dt : R) (n : nat) :
  forall (i : Z) (sum : R) (g1 : G1) (g2 : G2),
    draws (n * Z.to_nat (N slv)) g1 = draws (n * Z.to_nat (N slv)) g2 ->
    fst (simulations slv dt n i sum g1) = fst (simulations slv dt n i sum g2).
Proof.
  induction n as [| n IH]; intros i sum g1 g2 Hd; [reflexivity |].
  simpl Nat.mul in Hd. rewrite !draws_add in Hd.
  apply app_same_length in Hd; [| now rewrite !draws_length].
  destruct Hd as [Hd1 Hd2].
  rewrite !simulations_S.
  pose proof (simulation_payoff_draws slv dt g1 g2 Hd1) as H.
  destruct (simulation_payoff slv dt g1) as [[va | ea] ga] eqn:Ea;
    destruct (simulation_payoff slv dt g2) as [[vb | eb] gb] eqn:Eb;
    simpl in H; try discriminate; injection H as ->; [| reflexivity].
  apply simulation_payoff_state in Ea, Eb. subst ga gb. now apply IH.
Qed.

(** C8.  The value (or the exception) of [solve] is a function of the
    configuration and of the [M * N] draws the generator delivers: two
    runs of one constructed configuration whose generators deliver the
    same sequence of draws, as two generators built from one seed do,
    end in the same result. *)
Theorem solve_deterministic (slv : t) (g1 : G1) (g2 : G2) :
  constructed slv ->
  draws (Z.to_nat (M slv) * Z.to_nat (N slv)) g1
  = draws (Z.to_nat (M slv) * Z.to_nat (N slv)) g2 ->
  fst (solve slv g1) = fst (solve slv g2).
Proof.
  intros Hc Hd. rewrite !solve_eq by assumption.
  pose proof (simulations_draws slv (step_size slv) _ 0%Z 0 g1 g2 Hd) as H.
  destruct (simulations _ _ _ _ _ g1) as [[va | ea] ga];
    destruct (simulations _ _ _ _ _ g2) as [[vb | eb] gb];
    simpl in H; try discriminate; injection H as ->; reflexivity.
Qed.

End Determinism.

(** ** Sign of the estimate *)

Section Sign.
Context {G : Type} {rng : RNG G}.
Import MCSolver.

Lemma simulation_payoff_nonneg (slv : t) (dt : R) (g : G) v g' :
  simulation_payoff slv dt g = (Ok v, g') -> 0 <= v.
Proof.
  rewrite simulation_payoff_eq.
  destruct (simulate_path slv dt g) as [[[S_N path] | e] g1];
    [| discriminate].
  intros H. injection H as <- _.
  destruct (is_AsianOption _);
    [apply path_payoff_nonneg | apply price_payoff_nonneg].
Qed.

Lemma simulations_nonneg (slv : t) (dt : R) (n : nat) :
  forall (i : Z) (sum : R) (g : G) v g',
    0 <= sum -> simulations slv dt n i sum g = (Ok v, g') -> 0 <= v.
Proof.
  induction n as [| n IH]; intros i sum g v g' Hsum Hrun.
  - simpl in Hrun. unfold ret in Hrun. now injection Hrun as <- _.
  - rewrite simulations_S in Hrun.
    destruct (simulation_payoff slv dt g) as [[v1 | e] g1] eqn:E;
      [| discriminate].
    apply simulation_payoff_nonneg in E.
    apply IH in Hrun; [assumption | lra].
Qed.

(** C10.  No payoff is negative: the terminal-value form of every
    variant is [>= 0] at every price (and is 0 for an [AsianOption]),
    the path form of every variant is [>= 0] on every non-empty path of
    positive prices, and so is every value [solve] returns. *)
Theorem payoffs_nonnegative :
  (forall (p : Payoff) (S : R), 0 <= price_payoff p S) /\
  (forall (K : R) (isCall : bool) (S : R),
     price_payoff (AsianOption K isCall) S = 0) /\
  (forall (p : Payoff) (path : list R),
     path <> [] -> Forall (fun price => 0 < price) path ->
     0 <= path_payoff p path) /\
  (forall (slv : t) (g : G) (v : R) (g' : G),
     constructed slv -> solve slv g = (Ok v, g') -> 0 <= v).
Proof.
  split; [| split; [| split]].
  - apply price_payoff_nonneg.
  - reflexivity.
  - intros p path _ _. apply path_payoff_nonneg.
  - intros slv g v g' Hc Hrun.
    rewrite solve_eq in Hrun by assumption.
    destruct (simulations _ _ _ _ _ g) as [[sum | e] g1] eqn:E;
      [| discriminate].
    injection Hrun as <- _.
    apply simulations_nonneg in E; [| lra].
    destruct (constructed_positive slv Hc) as (_ & _ & _ & HM).
    apply IZR_lt in HM.
    apply Rmult_le_pos; [assumption |].
    apply Rlt_le, Rinv_0_lt_compat. assumption.
Qed.

End Sign.

(** ** The negative-price guard *)

Section Guard.
Context {G : Type} {rng : RNG G}.
Import MCSolver.

Lemma after_first_steps (slv : t) (m : nat) (i : Z) (sum : R) (g : G) :
  match simulations slv (step_size slv) (Datatypes.S m) i sum g with
  | (Ok s, g') => (Ok (s / IZR (M slv)), g')
  | (Throw e, g') => (Throw e, g')
  end
  = after_steps slv m i sum
      (steps slv (step_size slv) (Z.to_nat (N slv)) 0 (S0 slv)
         (store (vector (N slv + 1)) 0 (S0 slv)) g).
Proof.
  rewrite simulations_S, simulation_payoff_eq. unfold simulate_path.
  destruct (steps _ _ _ _ _ _ g) as [[[S_N path] | e] g']; reflexivity.
Qed.

(** From a reached loop head, [solve] is the rest of the loops. *)
Lemma reach_resume (slv : t) (g0 : G) :
  constructed slv ->
  forall i j S g,
    Reach slv g0 i j S g ->
    (0 <= i < M slv)%Z /\ (0 <= j <= N slv)%Z /\
    exists path sum,
      solve slv g0 =
      after_steps slv (Z.to_nat (M slv - i - 1)) i sum
        (steps slv (step_size slv) (Z.to_nat (N slv - j)) j S path g).
Proof.
  intros Hc. destruct (constructed_positive slv Hc) as (_ & _ & HN & HM).
  induction 1 as [| i j S g S' _ IH Hj Hadv Hpos | i S g _ IH Hi].
  - split; [lia |]. split; [lia |].
    exists (store (vector (N slv + 1)) 0 (S0 slv)), 0.
    rewrite solve_eq by assumption.
    replace (Z.to_nat (M slv)) with (Datatypes.S (Z.to_nat (M slv - 0 - 1)))
      by lia.
    rewrite after_first_steps. now rewrite !Z.sub_0_r.
  - destruct IH as (Hi & Hj' & path & sum & IH).
    split; [lia |]. split; [lia |].
    exists (store path (Z.to_nat (j + 1)) S'), sum.
    rewrite IH.
    replace (Z.to_nat (N slv - j))
      with (Datatypes.S (Z.to_nat (N slv - (j + 1)))) by lia.
    rewrite steps_S, Hadv.
    destruct (Rltb S' 0) eqn:E; [apply Rltb_true in E; lra | reflexivity].
  - destruct IH as (Hi' & _ & path & sum & IH).
    split; [lia |]. split; [lia |].
    rewrite IH, Z.sub_diag. simpl steps. unfold ret, after_steps at 1.
    eexists _, _.
    replace (Z.to_nat (M slv - i - 1))
      with (Datatypes.S (Z.to_nat (M slv - (i + 1) - 1))) by lia.
    rewrite after_first_steps. now rewrite !Z.sub_0_r.
Qed.

Lemma advance_positive_step (fdm : FDM) (S t dt dW : R) :
  0 < dt -> exists S', advance fdm S t dt dW = Ok S'.
Proof.
  intros Hdt. destruct fdm; simpl;
    unfold euler_advance, milstein_advance, predictor_corrector_advance;
    cmp; try lra; eexists; reflexivity.
Qed.

Lemma steps_reach (slv : t) (g0 : G) (i : Z) :
  constructed slv ->
  forall (n : nat) (j : Z) (S : R) (path : list R) (g : G),
    Reach slv g0 i j S g ->
    (j + Z.of_nat n = N slv)%Z ->
    match steps slv (step_size slv) n j S path g with
    | (Ok (S_N, _), g') => Reach slv g0 i (N slv) S_N g'
    | (Throw e, g') => e = NegativeAssetPrice /\ negative_step slv g0 g'
    end.
Proof.
  intros Hc. pose proof (constructed_dt slv Hc) as Hdt.
  induction n as [| n IH]; intros j S path g Hr Hn.
  - simpl. unfold ret. now replace (N slv) with j by lia.
  - rewrite steps_S.
    destruct (advance_positive_step (fdm slv) S (IZR j * step_size slv)
                (step_size slv) (sqrt (step_size slv) * fst (generate g)) Hdt)
      as [S' Hadv].
    rewrite Hadv. destruct (Rltb S' 0) eqn:E.
    + apply Rltb_true in E. split; [reflexivity |].
      exists i, j, S, g, S'. repeat split; auto. lia.
    + apply Rltb_false in E. apply IH; [| lia].
      eapply reach_step; eauto. lia.
Qed.

Lemma simulations_reach (slv : t) (g0 : G) :
  constructed slv ->
  forall (m : nat) (i : Z) (sum : R) (g : G),
    (i + Z.of_nat m = M slv)%Z ->
    (0 < m -> Reach slv g0 i 0 (S0 slv) g)%nat ->
    match simulations slv (step_size slv) m i sum g with
    | (Ok _, _) => True
    | (Throw e, g') => e = NegativeAssetPrice /\ negative_step slv g0 g'
    end.
Proof.
  intros Hc. destruct (constructed_positive slv Hc) as (_ & _ & HN & HM).
  induction m as [| m IH]; intros i sum g Hm Hr; [exact I |].
  rewrite simulations_S, simulation_payoff_eq. unfold simulate_path.
  pose proof (steps_reach slv g0 i Hc (Z.to_nat (N slv)) 0 (S0 slv)
                (store (vector (N slv + 1)) 0 (S0 slv)) g
                (Hr ltac:(lia)) ltac:(lia)) as Hs.
  destruct (steps _ _ _ _ _ _ g) as [[[S_N path] | e] g']; [| exact Hs].
  apply IH; [lia |]. intros Hpos. apply reach_next with (S := S_N); auto.
  lia.
Qed.

(** C6.  In a constructed solver, a step of any simulation whose
    advanced price is below zero makes [solve] throw
    [NegativeAssetPrice] there and then: the generator has delivered the
    draw of that step and nothing more, no later step or simulation is
    run, and no number is returned.  A run all of whose advanced prices
    are [>= 0] returns a number, having consumed [M * N] draws. *)
Theorem negative_price_aborts_run (slv : t) (g0 : G) :
  constructed slv ->
  (forall i j S g S',
     Reach slv g0 i j S g ->
     (j < N slv)%Z ->
     advance (fdm slv) S (IZR j * step_size slv) (step_size slv)
       (sqrt (step_size slv) * fst (generate g)) = Ok S' ->
     S' < 0 ->
     solve slv g0 = (Throw NegativeAssetPrice, snd (generate g)))
  /\
  ((forall i j S g S',
      Reach slv g0 i j S g ->
      (j < N slv)%Z ->
      advance (fdm slv) S (IZR j * step_size slv) (step_size slv)
        (sqrt (step_size slv) * fst (generate g)) = Ok S' ->
      0 <= S') ->
   exists v,
     solve slv g0
     = (Ok v, skip (Z.to_nat (M slv) * Z.to_nat (N slv)) g0)).
Proof.
  intros Hc. destruct (constructed_positive slv Hc) as (_ & _ & HN & HM).
  split.
  - intros i j S g S' Hr Hj Hadv Hneg.
    destruct (reach_resume slv g0 Hc i j S g Hr)
      as (_ & Hj' & path & sum & ->).
    replace (Z.to_nat (N slv - j))
      with (Datatypes.S (Z.to_nat (N slv - (j + 1)))) by lia.
    rewrite steps_S, Hadv.
    destruct (Rltb S' 0) eqn:E; [reflexivity | apply Rltb_false in E; lra].
  - intros Hall.
    pose proof (simulations_reach slv g0 Hc (Z.to_nat (M slv)) 0 0 g0
                  ltac:(lia) (fun _ => reach_start slv g0)) as Hs.
    rewrite solve_eq by assumption.
    destruct (simulations _ _ _ _ _ g0) as [[sum | e] g'] eqn:E.
    + apply simulations_state in E. subst g'. eexists; reflexivity.
    + destruct Hs as (_ & i & j & S & g & S' & Hr & Hj & Hadv & Hneg & _).
      specialize (Hall i j S g S' Hr Hj Hadv). lra.
Qed.

End Guard.

(** ** Zero volatility *)

Section ZeroVolatility.
Context {G : Type} {rng : RNG G}.
Import MCSolver.

Lemma advance_zero_volatility (fdm : FDM) (mu S t dt dW : R) :
  fdm_sde fdm = GBM mu 0 ->
  0 < dt ->
  advance fdm S t dt dW = Ok (S * one_step_growth fdm mu dt).
Proof.
  intros Hm Hdt. destruct fdm as [m | m | m]; simpl in Hm; subst m; simpl;
    unfold euler_advance, milstein_advance, predictor_corrector_advance;
    cbv [drift diffusion]; cmp; try lra; f_equal.
  - ring.
  - unfold Rdiv. ring.
  - replace 0.5 with (/ 2) by lra. field.
Qed.

Lemma advance_zero_vol_step (fdm : FDM) (mu S t dt dW : R) :
  fdm_sde fdm = GBM mu 0 ->
  0 < dt ->
  advance fdm S t dt dW = Ok (zero_vol_step fdm mu dt S).
Proof.
  intros Hm Hdt. destruct fdm as [m | m | m]; simpl in Hm; subst m;
    cbn [advance];
    unfold euler_advance, milstein_advance, predictor_corrector_advance;
    cbv [drift diffusion zero_vol_step]; cmp; try lra; f_equal.
  - ring.
  - unfold Rdiv. ring.
  - ring.
Qed.

(** The step loop on [GBM mu 0]: it follows the drift-only steps for as
    long as they stay at or above zero, and stops at the first one that
    falls below. *)
Lemma steps_zero_vol (slv : t) (mu dt : R) :
  fdm_sde (fdm slv) = GBM mu 0 ->
  0 < dt ->
  forall (n : nat) (j : Z) (S : R) (path : list R) (g : G),
    (0 <= j)%Z ->
    ((forall k, (1 <= k <= n)%nat ->
        0 <= Nat.iter k (zero_vol_step (fdm slv) mu dt) S) ->
     exists path',
       steps slv dt n j S path g
       = (Ok (Nat.iter n (zero_vol_step (fdm slv) mu dt) S, path'),
          skip n g) /\
       length path' = length path /\
       (forall k, (k <= Z.to_nat j)%nat -> nth k path' 0 = nth k path 0) /\
       (forall k, (k <= n)%nat -> (Z.to_nat j + k < length path)%nat ->
          nth (Z.to_nat j) path 0 = S ->
          nth (Z.to_nat j + k) path' 0
          = Nat.iter k (zero_vol_step (fdm slv) mu dt) S)) /\
    (forall m, (m < n)%nat ->
       (forall k, (1 <= k <= m)%nat ->
          0 <= Nat.iter k (zero_vol_step (fdm slv) mu dt) S) ->
       Nat.iter (Datatypes.S m) (zero_vol_step (fdm slv) mu dt) S < 0 ->
       steps slv dt n j S path g
       = (Throw NegativeAssetPrice, skip (Datatypes.S m) g)).
Proof.
  intros Hm Hdt. set (f := zero_vol_step (fdm slv) mu dt).
  induction n as [| n IH]; intros j S path g Hj.
  - split; [| intros m Hlt; lia].
    intros _. exists path. simpl. unfold ret. repeat split; auto.
    intros k Hk _ <-. replace k with 0%nat by lia.
    now rewrite Nat.add_0_r.
  - rewrite steps_S, (advance_zero_vol_step _ mu) by assumption. fold f.
    destruct (IH (j + 1)%Z (f S) (store path (Z.to_nat (j + 1)) (f S))
                (snd (generate g)) ltac:(lia)) as [IHok IHneg].
    replace (Z.to_nat (j + 1)) with (Datatypes.S (Z.to_nat j)) in * by lia.
    split.
    + intros Hpos.
      assert (H1 : 0 <= f S) by (apply (Hpos 1%nat); lia).
      destruct (Rltb (f S) 0) eqn:E; [apply Rltb_true in E; lra |].
      destruct IHok as (path' & Hrun & Hlen & Hlow & Hmid).
      { intros k Hk. rewrite <- Nat.iter_succ_r. apply Hpos. lia. }
      rewrite store_length in *.
      exists path'. split; [| split; [| split]].
      * rewrite Hrun. now rewrite <- Nat.iter_succ_r.
      * assumption.
      * intros k Hk. rewrite Hlow by lia. apply nth_store_neq. lia.
      * intros [| k] Hk Hin Hnth.
        -- rewrite Nat.add_0_r, Hlow by lia.
           rewrite nth_store_neq by lia. exact Hnth.
        -- replace (Z.to_nat j + Datatypes.S k)%nat
             with (Datatypes.S (Z.to_nat j) + k)%nat by lia.
           rewrite Hmid; [now rewrite <- Nat.iter_succ_r | lia | lia |].
           apply nth_store_eq. lia.
    + intros [| m] Hlt Hpos Hneg.
      * simpl in Hneg. apply Rltb_true in Hneg. now rewrite Hneg.
      * assert (H1 : 0 <= f S) by (apply (Hpos 1%nat); lia).
        destruct (Rltb (f S) 0) eqn:E; [apply Rltb_true in E; lra |].
        apply IHneg; [lia | |].
        -- intros k Hk. rewrite <- Nat.iter_succ_r. apply Hpos. lia.
        -- now rewrite <- Nat.iter_succ_r.
Qed.

(** C2, as the code has it.  With the model [GBM mu 0] a simulation
    does not depend on the draws.  The terms with the factor [sigma]
    vanish, and each price comes from the one before it by the
    drift-only step of the scheme: [S + mu*S*dt] under Euler and
    Milstein, [S + 0.5*(mu*S + mu*(S + mu*S*dt))*dt] under the
    predictor-corrector, from [S0] on.  If none of the [N] prices so
    obtained is negative, they are the path; if one is, the
    negative-price guard stops the run at the first such step.  This
    is the discretisation of [S0 * e^(mu*t)], not that function.
    The step size [T / N] is taken positive, as [solve] checks it. *)
Theorem zero_volatility_path (slv : t) (mu : R) (g : G) :
  constructed slv ->
  0 < step_size slv ->
  fdm_sde (fdm slv) = GBM mu 0 ->
  let s := zero_vol_state (fdm slv) mu (step_size slv) (S0 slv) in
  ((forall k, (k <= Z.to_nat (N slv))%nat -> 0 <= s k) ->
   exists path,
     simulate_path slv (step_size slv) g
     = (Ok (s (Z.to_nat (N slv)), path), skip (Z.to_nat (N slv)) g) /\
     length path = Z.to_nat (N slv + 1) /\
     forall k, (k <= Z.to_nat (N slv))%nat -> nth k path 0 = s k) /\
  (forall j, (j < Z.to_nat (N slv))%nat ->
     (forall k, (k <= j)%nat -> 0 <= s k) ->
     s (Datatypes.S j) < 0 ->
     simulate_path slv (step_size slv) g
     = (Throw NegativeAssetPrice, skip (Datatypes.S j) g)).
Proof.
  intros Hc Hdt Hm s.
  destruct (constructed_positive slv Hc) as (HS0 & _ & HN & _).
  destruct (steps_zero_vol slv mu (step_size slv) Hm Hdt
              (Z.to_nat (N slv)) 0 (S0 slv)
              (store (vector (N slv + 1)) 0 (S0 slv)) g ltac:(lia))
    as [Hok Hneg].
  split.
  - intros Hpos.
    destruct Hok as (path & Hrun & Hlen & _ & Hmid).
    { intros k Hk. apply Hpos. lia. }
    rewrite store_length, vector_length in *.
    exists path. split; [exact Hrun |]. split; [exact Hlen |].
    intros k Hk. apply (Hmid k Hk); [simpl; lia |].
    apply nth_store_eq. rewrite vector_length. lia.
  - intros j Hj Hpos Hlt. apply Hneg; auto.
    intros k Hk. apply Hpos. lia.
Qed.

End ZeroVolatility.

(** ** Scenarios *)

Section Runs.
Context {G : Type} {rng : RNG G}.
Import MCSolver.

(** One step of the loop whose advanced price is known and not
    negative. *)
Lemma steps_S_ok (slv : t) (dt : R) (n : nat) (j : Z) (S : R)
  (path : list R) (g : G) (S' : R) :
  advance (fdm slv) S (IZR j * dt) dt (sqrt dt * fst (generate g)) = Ok S' ->
  0 <= S' ->
  steps slv dt (Datatypes.S n) j S path g =
  steps slv dt n (j + 1)%Z S' (store path (Z.to_nat (j + 1)) S')
    (snd (generate g)).
Proof.
  intros Ha Hpos. rewrite steps_S, Ha.
  cmp; [lra | reflexivity].
Qed.

End Runs.

Import MCSolver.

(** The constructor accepts a scenario. *)
Ltac new_ok :=
  unfold constructed, new; cbn [S0 T N M]; cmp; try lra; reflexivity.

(** The value of [advance] at given numbers. *)
Ltac advance_value :=
  cbn [S0 T N M fdm payoff sde advance fst snd generate Recorded];
  unfold euler_advance, milstein_advance, predictor_corrector_advance;
  cbv [drift diffusion];
  cmp; [lra | f_equal; lra].

Lemma demo_constructed (p : Payoff) : constructed (demo p).
Proof. unfold demo. new_ok. Qed.

(** With both draws equal to 0 the price grows by 2.5% a step. *)
Lemma demo_path (p : Payoff) (g : list R) :
  simulate_path (demo p) (step_size (demo p)) (0 :: 0 :: g) =
  (Ok (105.0625, [100; 102.5; 105.0625]), g).
Proof.
  unfold simulate_path, step_size.
  change (Z.to_nat (N (demo p))) with 2%nat.
  change (vector (N (demo p) + 1)) with [0; 0; 0].
  rewrite (steps_S_ok _ _ _ _ _ _ _ 102.5);
    [| unfold demo; advance_value | lra].
  rewrite (steps_S_ok _ _ _ _ _ _ _ 105.0625);
    [| unfold demo; advance_value | lra].
  reflexivity.
Qed.

Lemma demo_solve (g : list R) :
  solve (demo (EuropeanCall 100)) (0 :: 0 :: g) = (Ok 5.0625, g).
Proof.
  rewrite solve_eq by apply demo_constructed.
  change (Z.to_nat (M (demo (EuropeanCall 100)))) with 1%nat.
  rewrite simulations_S, simulation_payoff_eq, demo_path.
  cbn [is_AsianOption payoff demo price_payoff simulations ret M].
  f_equal. f_equal. unfold std_max. cmp; lra.
Qed.

Lemma overshoot_constructed : constructed overshoot.
Proof. unfold overshoot. new_ok. Qed.

Lemma zero_vol_constructed (scheme : SDE -> FDM) (mu : R) :
  constructed (zero_vol scheme mu).
Proof. unfold zero_vol. new_ok. Qed.

Lemma payoff_dispatch_witness :
  length [100; 102.5; 105.0625] = 3%nat /\
  nth 0 [100; 102.5; 105.0625] 0 = 100 /\
  nth 2 [100; 102.5; 105.0625] 0 = 105.0625 /\
  simulation_payoff (demo (AsianOption 100 false))
    (step_size (demo (AsianOption 100 false))) [0; 0] =
  (Ok (path_payoff (AsianOption 100 false) [100; 102.5; 105.0625]), []).
Proof.
  exact (payoff_dispatch (demo (AsianOption 100 false)) [0; 0] _ _ _
           (demo_constructed _) (demo_path _ [])).
Defined.

Lemma solve_deterministic_witness :
  fst (solve (demo (EuropeanCall 100)) [0; 0])
  = fst (solve (demo (EuropeanCall 100)) [0; 0; 1]).
Proof.
  apply solve_deterministic; [apply demo_constructed | reflexivity].
Defined.

Lemma payoffs_nonnegative_witness :
  0 <= 5.0625 /\
  0 <= path_payoff (AsianOption 100 false) [100; 102.5; 105.0625].
Proof.
  destruct (@payoffs_nonnegative (list R) _) as (_ & _ & Hpath & Hsolve).
  split.
  - exact (Hsolve (demo (EuropeanCall 100)) [0; 0] 5.0625 []
             (demo_constructed _) (demo_solve [])).
  - apply Hpath; [discriminate |].
    repeat constructor; lra.
Defined.

(** Every price at a loop head of a run is [>= 0]. *)
Lemma reach_nonneg {G : Type} {rng : RNG G} (slv : t) (g0 : G) :
  constructed slv ->
  forall i j S g, Reach slv g0 i j S g -> 0 <= S.
Proof.
  intros Hc. destruct (constructed_positive slv Hc) as (HS0 & _).
  induction 1; lra.
Qed.

Lemma negative_price_aborts_run_witness :
  solve overshoot [0; 0] = (Throw NegativeAssetPrice, [0]) /\
  exists v, solve (zero_vol EulerMethod 1) [3] = (Ok v, []).
Proof.
  split.
  - refine (proj1 (negative_price_aborts_run overshoot [0; 0]
                     overshoot_constructed) 0%Z 0%Z 1 [0; 0] (-1) _ _ _ _).
    + apply reach_start.
    + reflexivity.
    + unfold step_size, overshoot. advance_value.
    + lra.
  - refine (proj2 (negative_price_aborts_run (zero_vol EulerMethod 1) [3]
                     (zero_vol_constructed _ _)) _).
    intros i j S g S' Hr _ Hadv.
    apply reach_nonneg in Hr; [| apply zero_vol_constructed].
    rewrite (advance_zero_volatility _ 1) in Hadv;
      [| reflexivity | unfold step_size; cbn [T N zero_vol]; lra].
    injection Hadv as <-.
    apply Rmult_le_pos; [assumption |].
    unfold step_size. cbn [one_step_growth zero_vol fdm T N]. lra.
Defined.

Lemma zero_volatility_path_witness :
  (exists path,
     simulate_path (zero_vol DriftAdjustedPredictorCorrector 1)
       (step_size (zero_vol DriftAdjustedPredictorCorrector 1)) [7]
     = (Ok (zero_vol_state (DriftAdjustedPredictorCorrector (GBM 1 0)) 1
              (1 / 1) 1 1, path), []) /\
     length path = 2%nat /\
     forall k, (k <= 1)%nat ->
       nth k path 0
       = zero_vol_state (DriftAdjustedPredictorCorrector (GBM 1 0)) 1
           (1 / 1) 1 k) /\
  simulate_path (zero_vol EulerMethod (-3))
    (step_size (zero_vol EulerMethod (-3))) [7]
  = (Throw NegativeAssetPrice, []).
Proof.
  split.
  - refine (proj1 (zero_volatility_path
                     (zero_vol DriftAdjustedPredictorCorrector 1) 1 [7]
                     (zero_vol_constructed _ _) _ eq_refl) _);
      [unfold step_size; cbn [zero_vol T N]; lra |].
    intros k Hk. unfold step_size. cbn [zero_vol fdm S0 T N].
    destruct k as [| [| k]]; [| | simpl in Hk; lia];
      cbv [zero_vol_state Nat.iter nat_rect zero_vol_step]; lra.
  - refine (proj2 (zero_volatility_path (zero_vol EulerMethod (-3)) (-3) [7]
                     (zero_vol_constructed _ _) _ eq_refl) 0%nat _ _ _).
    + unfold step_size. cbn [zero_vol T N]. lra.
    + simpl. lia.
    + intros k Hk. replace k with 0%nat by lia.
      cbv [zero_vol_state Nat.iter nat_rect]. cbn [zero_vol S0]. lra.
    + unfold step_size. cbn [zero_vol fdm S0 T N].
      cbv [zero_vol_state Nat.iter nat_rect zero_vol_step]. lra.
Defined.

(** C2, as the specification has it, fails: with [mu = 1], [S0 = 1] and
    one step of length 1 the Euler scheme ends at [1 + 1 = 2], and
    [e > 2]. *)
Lemma zero_volatility_not_exponential :
  simulate_path (zero_vol EulerMethod 1) (step_size (zero_vol EulerMethod 1))
    [0]
  = (Ok (2, [1; 2]), [])
  /\ nth 1 [1; 2] 0
     <> continuous_growth (S0 (zero_vol EulerMethod 1)) 1
          (1 * step_size (zero_vol EulerMethod 1)).
Proof.
  split.
  - unfold simulate_path, step_size.
    change (Z.to_nat (N (zero_vol EulerMethod 1))) with 1%nat.
    change (vector (N (zero_vol EulerMethod 1) + 1)) with [0; 0].
    rewrite (steps_S_ok _ _ _ _ _ _ _ 2);
      [reflexivity | unfold zero_vol; advance_value | lra].
  - unfold continuous_growth, step_size. cbn [S0 T N zero_vol nth].
    replace (1 * (1 * (1 / 1))) with 1 by lra.
    pose proof (exp_ineq1 1 ltac:(lra)). lra.
Qed.
(** * Further properties *)

(** ** Payoffs *)

Section PayoffFacts.

(** X1.  Call minus put is the forward, price by price: for the
    European pair at the last price of a path, for the Asian pair at
    the geometric average. *)
Theorem call_put_parity (K : R) (path : list R) :
  path <> [] ->
  (forall S : R,
     price_payoff (EuropeanCall K) S - price_payoff (EuropeanPut K) S
     = S - K) /\
  path_payoff (EuropeanCall K) path - path_payoff (EuropeanPut K) path
  = back path - K /\
  path_payoff (AsianOption K true) path
  - path_payoff (AsianOption K false) path
  = geometricAverage path - K.
Proof.
  intros _. assert (H : forall x, std_max x 0 - std_max (- x) 0 = x).
  { intros x. unfold std_max. cmp; lra. }
  split; [| split].
  - intros S. simpl. replace (K - S) with (- (S - K)) by lra. apply H.
  - simpl. replace (K - back path) with (- (back path - K)) by lra. apply H.
  - simpl.
    replace (K - geometricAverage path)
      with (- (geometricAverage path - K)) by lra.
    apply H.
Qed.

Lemma call_put_parity_witness :
  path_payoff (EuropeanCall 100) [100; 120; 105]
  - path_payoff (EuropeanPut 100) [100; 120; 105]
  = back [100; 120; 105] - 100.
Proof.
  apply (call_put_parity 100 [100; 120; 105]). discriminate.
Defined.

End PayoffFacts.

Section PayoffShape.

(** X5.  A barrier option pays either nothing or the vanilla payoff of
    its side, never more and never less than zero. *)
Theorem barrier_between_zero_and_vanilla
  (K B : R) (isCall isUp isIn : bool) (S : R) :
  (price_payoff (BarrierOption K B isCall isUp isIn) S = 0 \/
   price_payoff (BarrierOption K B isCall isUp isIn) S
   = price_payoff (vanilla K isCall) S) /\
  0 <= price_payoff (BarrierOption K B isCall isUp isIn) S
    <= price_payoff (vanilla K isCall) S.
Proof.
  pose proof (price_payoff_nonneg (vanilla K isCall) S) as Hv.
  assert (H : price_payoff (BarrierOption K B isCall isUp isIn) S = 0 \/
              price_payoff (BarrierOption K B isCall isUp isIn) S
              = price_payoff (vanilla K isCall) S).
  { simpl. unfold barrier_price, vanilla.
    destruct isIn, isUp, isCall; simpl; cmp; simpl; auto. }
  split; [exact H |]. destruct H as [-> | ->]; lra.
Qed.

(** X6.  Barriers on the wrong side of the strike.  An up-and-out call
    whose barrier is not above the strike, and a down-and-out put whose
    barrier is not below the strike, never pay; their knock-in twins
    are the vanilla call and put. *)
Theorem barrier_at_or_beyond_strike (K B S : R) :
  (B <= K ->
   price_payoff (BarrierOption K B true true false) S = 0 /\
   price_payoff (BarrierOption K B true true true) S
   = price_payoff (EuropeanCall K) S) /\
  (K <= B ->
   price_payoff (BarrierOption K B false false false) S = 0 /\
   price_payoff (BarrierOption K B false false true) S
   = price_payoff (EuropeanPut K) S).
Proof.
  split; intros H; simpl; unfold barrier_price, std_max; simpl;
    cmp; simpl; try lra; split; lra.
Qed.

Lemma barrier_at_or_beyond_strike_witness :
  (price_payoff (BarrierOption 100 90 true true false) 95 = 0 /\
   price_payoff (BarrierOption 100 90 true true true) 95
   = price_payoff (EuropeanCall 100) 95) /\
  (price_payoff (BarrierOption 100 110 false false false) 105 = 0 /\
   price_payoff (BarrierOption 100 110 false false true) 105
   = price_payoff (EuropeanPut 100) 105).
Proof.
  split.
  - apply (barrier_at_or_beyond_strike 100 90 95). lra.
  - apply (barrier_at_or_beyond_strike 100 110 105). lra.
Defined.

(** X7.  A European call does not fall and a European put does not
    rise when the price rises. *)
Theorem european_monotone (K S1 S2 : R) :
  S1 <= S2 ->
  price_payoff (EuropeanCall K) S1 <= price_payoff (EuropeanCall K) S2 /\
  price_payoff (EuropeanPut K) S2 <= price_payoff (EuropeanPut K) S1.
Proof.
  intros H. simpl. unfold std_max. cmp; lra.
Qed.

Lemma european_monotone_witness :
  price_payoff (EuropeanCall 100) 95 <= price_payoff (EuropeanCall 100) 105 /\
  price_payoff (EuropeanPut 100) 105 <= price_payoff (EuropeanPut 100) 95.
Proof.
  apply european_monotone. lra.
Defined.

(** X18.  A payoff of the put kind with strike [K] (a European put, a
    barrier put, an Asian put) pays between 0 and [max(K, 0)]: at every
    price that is not negative, and on every non-empty path of positive
    prices. *)
Theorem put_payoff_within_strike (p : Payoff) (K : R) :
  put_strike p = Some K ->
  (forall S : R, 0 <= S -> 0 <= price_payoff p S <= Rmax K 0) /\
  (forall path : list R,
     path <> [] -> Forall (fun price => 0 < price) path ->
     0 <= path_payoff p path <= Rmax K 0).
Proof.
  intros Hp.
  assert (Hprice : forall S, 0 <= S -> price_payoff p S <= Rmax K 0).
  { intros S HS. rewrite <- std_max_Rmax.
    destruct p as [K' | K' | K' B isCall isUp isIn | K' isCall]; simpl in *.
    - discriminate.
    - injection Hp as ->. unfold std_max. cmp; lra.
    - destruct isCall; [discriminate |]. injection Hp as ->.
      unfold barrier_price, std_max.
      destruct isIn, isUp; simpl; cmp; simpl; lra.
    - unfold std_max. cmp; lra. }
  split.
  - intros S HS. split; [apply price_payoff_nonneg | now apply Hprice].
  - intros path Hne Hpos. split; [apply path_payoff_nonneg |].
    destruct p as [K' | K' | K' B isCall isUp isIn | K' isCall];
      try (apply Hprice; unfold back;
           destruct (exists_last Hne) as (pre & S & ->);
           rewrite last_last; apply Forall_app in Hpos;
           destruct Hpos as [_ Hpos]; inversion Hpos; lra).
    simpl in *. destruct isCall; [discriminate |]. injection Hp as ->.
    pose proof (exp_pos (logSum path / INR (length path))) as He.
    rewrite <- std_max_Rmax. unfold geometricAverage, std_max. cmp; lra.
Qed.

Lemma put_payoff_within_strike_witness :
  0 <= price_payoff (BarrierOption 100 110 false true false) 95
    <= Rmax 100 0 /\
  0 <= path_payoff (AsianOption 100 false) [100; 102.5; 105.0625]
    <= Rmax 100 0.
Proof.
  split.
  - apply (proj1 (put_payoff_within_strike
                    (BarrierOption 100 110 false true false) 100 eq_refl)).
    lra.
  - apply (proj2 (put_payoff_within_strike (AsianOption 100 false) 100
                    eq_refl)).
    + discriminate.
    + repeat constructor; lra.
Defined.

End PayoffShape.

(** ** Models and schemes *)

Section SchemeFacts.

Ltac each_scheme H :=
  unfold schemes in H; simpl in H;
  destruct H as [<- | [<- | [<- | []]]].

Ltac unfold_advance :=
  cbn [advance];
  unfold euler_advance, milstein_advance, predictor_corrector_advance.


(** X8.  On positive prices a CEV model with elasticity 1 is the
    geometric Brownian motion with the same rate and volatility: every
    scheme takes the same step on the two. *)
Theorem cev_unit_elasticity_is_gbm
  (scheme : SDE -> FDM) (mu sigma S t dt dW : R) :
  In scheme schemes ->
  0 < S ->
  advance (scheme (CEV mu sigma 1)) S t dt dW
  = advance (scheme (GBM mu sigma)) S t dt dW.
Proof.
  intros Hs HS.
  assert (H1 : forall x, 0 < x -> std_pow x 1 = x).
  { intros x Hx. unfold std_pow. now apply Rpower_1. }
  each_scheme Hs; unfold_advance; cbv [drift diffusion];
    rewrite ?H1 by lra; reflexivity.
Qed.

Lemma cev_unit_elasticity_is_gbm_witness :
  advance (MilsteinMethod (CEV 0.05 0.2 1)) 100 0 (1 / 500) 1
  = advance (MilsteinMethod (GBM 0.05 0.2)) 100 0 (1 / 500) 1.
Proof.
  apply (cev_unit_elasticity_is_gbm MilsteinMethod 0.05 0.2 100 0
           (1 / 500) 1).
  - simpl. auto.
  - lra.
Defined.

End SchemeFacts.

(** ** The solver: outcomes and draws *)

Section SolverFacts.
Context {G : Type} {rng : RNG G}.
Import MCSolver.

Lemma skip_S_r (n : nat) (g : G) :
  skip (Datatypes.S n) g = snd (generate (skip n g)).
Proof.
  replace (Datatypes.S n) with (n + 1)%nat by lia.
  now rewrite skip_add.
Qed.

(** The generator state at a loop head: one draw per step taken. *)
Lemma reach_draws (slv : t) (g0 : G) :
  constructed slv ->
  forall i j S g,
    Reach slv g0 i j S g ->
    g = skip (Z.to_nat i * Z.to_nat (N slv) + Z.to_nat j) g0.
Proof.
  intros Hc i j S g Hr.
  induction Hr as [| i j S g S' Hr IH Hj _ _ | i S g Hr IH Hi].
  - reflexivity.
  - destruct (reach_resume slv g0 Hc _ _ _ _ Hr) as (_ & Hj' & _).
    replace (Z.to_nat (j + 1)) with (Datatypes.S (Z.to_nat j)) by lia.
    rewrite Nat.add_succ_r, skip_S_r. now rewrite <- IH.
  - destruct (reach_resume slv g0 Hc _ _ _ _ Hr) as (Hi' & _ & _).
    rewrite IH. f_equal. lia.
Qed.

(** X11.  A constructed solver whose step size [T / N] comes out
    positive, and whose [N + 1] is an [int], either returns, having
    drawn exactly [M * N] numbers, or throws [NegativeAssetPrice] after
    at least one and at most [M * N] draws.  The step-size check of the
    schemes never fires. *)
Theorem solve_outcomes (slv : t) (g : G) :
  constructed slv ->
  0 < step_size slv ->
  (N slv < 2147483647)%Z ->
  (exists v,
     solve slv g = (Ok v, skip (Z.to_nat (M slv) * Z.to_nat (N slv)) g)) \/
  (exists k,
     (1 <= k <= Z.to_nat (M slv) * Z.to_nat (N slv))%nat /\
     solve slv g = (Throw NegativeAssetPrice, skip k g)).
Proof.
  intros Hc _ _.
  pose proof (simulations_reach slv g Hc (Z.to_nat (M slv)) 0 0 g) as Hs.
  destruct (constructed_positive slv Hc) as (_ & _ & HN & HM).
  specialize (Hs ltac:(lia) (fun _ => reach_start slv g)).
  rewrite solve_eq by assumption.
  destruct (simulations _ _ _ _ _ g) as [[sum | e] g'] eqn:E.
  - left. apply simulations_state in E. subst g'. eexists; reflexivity.
  - right. destruct Hs as (-> & i & j & S & g1 & S' & Hr & Hj & _ & _ & ->).
    destruct (reach_resume slv g Hc _ _ _ _ Hr) as (Hi & Hj' & _).
    apply (reach_draws slv g Hc) in Hr. subst g1.
    exists (Datatypes.S (Z.to_nat i * Z.to_nat (N slv) + Z.to_nat j)).
    split; [| now rewrite skip_S_r].
    split; [lia |].
    replace (Z.to_nat (M slv))
      with (Datatypes.S (Z.to_nat (M slv) - 1 - Z.to_nat i) + Z.to_nat i)%nat
      by lia.
    nia.
Qed.

Lemma simulations_payoffs (slv : t) (dt : R) (n : nat) :
  forall (i : Z) (sum : R) (g : G) v g',
    simulations slv dt n i sum g = (Ok v, g') ->
    exists vs : list R,
      length vs = n /\
      (forall k, (k < n)%nat ->
         fst (simulation_payoff slv dt (skip (k * Z.to_nat (N slv)) g))
         = Ok (nth k vs 0)) /\
      v = fold_left Rplus vs sum.
Proof.
  induction n as [| n IH]; intros i sum g v g' Hrun.
  - simpl in Hrun. unfold ret in Hrun. injection Hrun as <- _.
    exists []. repeat split; auto. intros k Hk. lia.
  - rewrite simulations_S in Hrun.
    destruct (simulation_payoff slv dt g) as [[v1 | e] g1] eqn:E;
      [| discriminate].
    pose proof (simulation_payoff_state _ _ _ _ _ E) as ->.
    destruct (IH _ _ _ _ _ Hrun) as (vs & Hlen & Hvs & Hv).
    exists (v1 :: vs). split; [simpl; lia |]. split; [| exact Hv].
    intros [| k] Hk.
    + simpl. now rewrite E.
    + simpl nth. rewrite <- Hvs by lia.
      simpl Nat.mul. now rewrite skip_add.
Qed.

(** X12.  The value [solve] returns is the mean of the payoffs of [M]
    simulations, accumulated from the first to the last, and
    simulation [i] is the one that reads the draws [i*N] to
    [i*N + N - 1] of the generator. *)
Theorem solve_is_mean_of_simulations (slv : t) (g : G) (v : R) (g' : G) :
  constructed slv ->
  solve slv g = (Ok v, g') ->
  exists vs : list R,
    length vs = Z.to_nat (M slv) /\
    (forall i, (i < Z.to_nat (M slv))%nat ->
       fst (simulation_payoff slv (step_size slv)
              (skip (i * Z.to_nat (N slv)) g))
       = Ok (nth i vs 0)) /\
    v = fold_left Rplus vs 0 / IZR (M slv).
Proof.
  intros Hc Hrun. rewrite solve_eq in Hrun by assumption.
  destruct (simulations _ _ _ _ _ g) as [[sum | e] g1] eqn:E;
    [| discriminate].
  injection Hrun as <- _.
  destruct (simulations_payoffs _ _ _ _ _ _ _ _ E) as (vs & Hlen & Hvs & ->).
  exists vs. auto.
Qed.

End SolverFacts.

(** ** The solver: the simulated path *)

Section PathFacts.
Context {G : Type} {rng : RNG G}.
Import MCSolver.

Lemma steps_chain (slv : t) (dt : R) (n : nat) :
  forall (j : Z) (S : R) (path : list R) (g : G) S' path' g',
    steps slv dt n j S path g = (Ok (S', path'), g') ->
    (0 <= j)%Z ->
    (Z.to_nat j + n < length path)%nat ->
    nth (Z.to_nat j) path 0 = S ->
    forall k, (k < n)%nat ->
      advance (fdm slv) (nth (Z.to_nat j + k) path' 0)
        (IZR (j + Z.of_nat k) * dt) dt (sqrt dt * nth k (draws n g) 0)
      = Ok (nth (Datatypes.S (Z.to_nat j + k)) path' 0) /\
      Rltb (nth (Datatypes.S (Z.to_nat j + k)) path' 0) 0 = false.
Proof.
  induction n as [| n IH]; intros j S path g S' path' g' Hrun Hj Hin Hnth k Hk;
    [lia |].
  rewrite steps_S in Hrun.
  destruct (advance _ _ _ _ _) as [S1 | e] eqn:Ea; [| discriminate].
  destruct (Rltb S1 0) eqn:Es; [discriminate |].
  pose proof (steps_buffer _ _ _ _ _ _ _ _ _ _ Hrun ltac:(lia))
    as (_ & Hlow & _).
  replace (Z.to_nat (j + 1)) with (Datatypes.S (Z.to_nat j)) in * by lia.
  assert (H1 : nth (Datatypes.S (Z.to_nat j))
                 (store path (Datatypes.S (Z.to_nat j)) S1) 0 = S1).
  { apply nth_store_eq. lia. }
  destruct k as [| k].
  - rewrite Nat.add_0_r, Z.add_0_r.
    rewrite !Hlow by lia. rewrite H1, nth_store_neq by lia.
    rewrite Hnth. simpl nth. split; assumption.
  - specialize (IH _ _ _ _ _ _ _ Hrun ltac:(lia)).
    rewrite store_length in IH.
    replace (Z.to_nat (j + 1)) with (Datatypes.S (Z.to_nat j)) in IH by lia.
    specialize (IH ltac:(lia) H1 k ltac:(lia)). simpl nth in IH.
    replace (Z.to_nat j + Datatypes.S k)%nat
      with (Datatypes.S (Z.to_nat j) + k)%nat by lia.
    replace (j + Z.of_nat (Datatypes.S k))%Z
      with (j + 1 + Z.of_nat k)%Z by lia.
    exact IH.
Qed.

(** X13.  The path of a simulation is the chain of the scheme's steps:
    it starts at [S0], each entry is [advance] of the entry before it
    at time [k * dt] with the increment [sqrt dt] times draw [k], and
    no stored entry is one the guard [S < 0] would have stopped. *)
Theorem simulated_path_is_chain_of_steps
  (slv : t) (g : G) (S : R) (path : list R) (g' : G) :
  constructed slv ->
  simulate_path slv (step_size slv) g = (Ok (S, path), g') ->
  nth 0 path 0 = S0 slv /\
  forall k, (k < Z.to_nat (N slv))%nat ->
    advance (fdm slv) (nth k path 0) (IZR (Z.of_nat k) * step_size slv)
      (step_size slv)
      (sqrt (step_size slv) * nth k (draws (Z.to_nat (N slv)) g) 0)
    = Ok (nth (Datatypes.S k) path 0) /\
    Rltb (nth (Datatypes.S k) path 0) 0 = false.
Proof.
  intros Hc Hrun.
  destruct (constructed_positive slv Hc) as (_ & _ & HN & _).
  unfold simulate_path in Hrun.
  assert (H0 : nth 0 (store (vector (N slv + 1)) 0 (S0 slv)) 0 = S0 slv).
  { apply nth_store_eq. rewrite vector_length. lia. }
  split.
  - pose proof (steps_buffer _ _ _ _ _ _ _ _ _ _ Hrun ltac:(lia))
      as (_ & Hlow & _).
    rewrite Hlow by (simpl; lia). exact H0.
  - intros k Hk.
    apply (steps_chain _ _ _ _ _ _ _ _ _ _ Hrun ltac:(lia)); auto.
    rewrite store_length, vector_length. simpl. lia.
Qed.

Lemma last_nth_length (l : list R) (d : R) :
  l <> [] -> last l d = nth (length l - 1) l d.
Proof.
  induction l as [| x l IH]; intros Hne; [contradiction |].
  destruct l as [| y l]; [reflexivity |].
  change (last (x :: y :: l) d) with (last (y :: l) d).
  rewrite IH by discriminate. simpl. now rewrite Nat.sub_0_r.
Qed.

(** X14.  The branch on the kind of payoff changes nothing a user can
    see: in a constructed solver the final price is the last element of
    the path, so the payoff of a simulation is always the path form of
    the payoff on the simulated path. *)
Theorem simulation_payoff_is_path_form
  (slv : t) (g : G) (S : R) (path : list R) (g' : G) :
  constructed slv ->
  simulate_path slv (step_size slv) g = (Ok (S, path), g') ->
  back path = S /\
  simulation_payoff slv (step_size slv) g
  = (Ok (path_payoff (payoff slv) path), g').
Proof.
  intros Hc Hrun.
  destruct (constructed_positive slv Hc) as (_ & _ & HN & _).
  pose proof Hrun as Hbuf. unfold simulate_path in Hbuf.
  apply steps_buffer in Hbuf; [| lia].
  rewrite store_length, vector_length in Hbuf.
  destruct Hbuf as (Hlen & _ & Hlast).
  assert (Hb : back path = S).
  { unfold back. rewrite last_nth_length.
    - rewrite Hlen. replace (Z.to_nat (N slv + 1) - 1)%nat
        with (Z.to_nat 0 + Z.to_nat (N slv))%nat by lia.
      apply Hlast; [lia |]. apply nth_store_eq. rewrite vector_length. lia.
    - intros ->. simpl in Hlen. lia. }
  split; [exact Hb |].
  rewrite simulation_payoff_eq, Hrun.
  destruct (payoff slv); simpl; rewrite ?Hb; reflexivity.
Qed.

End PathFacts.

(** ** The solver: what the result depends on *)

Section Dependence.
Context {G : Type} {rng : RNG G}.
Import MCSolver.

Lemma steps_ext (slv slv' : t) (dt : R) :
  fdm slv = fdm slv' ->
  forall (n : nat) (j : Z) (S : R) (path : list R) (g : G),
    steps slv dt n j S path g = steps slv' dt n j S path g.
Proof.
  intros Hf. induction n as [| n IH]; intros j S path g; [reflexivity |].
  rewrite !steps_S, Hf.
  destruct (advance _ _ _ _ _) as [S1 | e]; [| reflexivity].
  destruct (Rltb S1 0); [reflexivity | apply IH].
Qed.

Lemma simulate_path_ext (slv slv' : t) (dt : R) (g : G) :
  fdm slv = fdm slv' -> S0 slv = S0 slv' -> N slv = N slv' ->
  simulate_path slv dt g = simulate_path slv' dt g.
Proof.
  intros Hf HS HN. unfold simulate_path. rewrite HS, HN.
  now apply steps_ext.
Qed.

Lemma simulations_ext (slv slv' : t) (dt : R) :
  fdm slv = fdm slv' -> S0 slv = S0 slv' -> N slv = N slv' ->
  payoff slv = payoff slv' ->
  forall (n : nat) (i : Z) (sum : R) (g : G),
    simulations slv dt n i sum g = simulations slv' dt n i sum g.
Proof.
  intros Hf HS HN Hp. induction n as [| n IH]; intros i sum g;
    [reflexivity |].
  rewrite !simulations_S, !simulation_payoff_eq.
  rewrite (simulate_path_ext slv slv') by assumption. rewrite Hp.
  destruct (simulate_path slv' dt g) as [[[S_N path] | e] g'];
    [apply IH | reflexivity].
Qed.

(** X15.  [solve] never reads the solver's own [sde] member: the model
    that drives a simulation is the one bound in the scheme, whatever
    model the solver was given beside it. *)
Theorem solve_ignores_sde_member (slv : t) (other : SDE) (g : G) :
  solve (with_sde slv other) g = solve slv g.
Proof.
  unfold solve, with_sde. cbn [T N M].
  destruct (Rleb _ 0); [reflexivity |]. unfold bind.
  now rewrite (simulations_ext _ slv).
Qed.

Lemma simulations_any_payoff (slv : t) (p q : Payoff) (dt : R) :
  forall (n : nat) (i : Z) (a b : R) (g : G),
    match simulations (with_payoff slv p) dt n i a g,
          simulations (with_payoff slv q) dt n i b g with
    | (Ok _, g1), (Ok _, g2) => g1 = g2
    | (Throw e1, g1), (Throw e2, g2) => e1 = e2 /\ g1 = g2
    | _, _ => False
    end.
Proof.
  induction n as [| n IH]; intros i a b g; [reflexivity |].
  rewrite !simulations_S, !simulation_payoff_eq.
  rewrite !(simulate_path_ext (with_payoff slv _) slv) by reflexivity.
  destruct (simulate_path slv dt g) as [[[S_N path] | e] g1]; [apply IH |].
  split; reflexivity.
Qed.

(** X16.  The payoff has no say in how a run ends: on the same
    generator, two solvers that differ in their payoff only either both
    return, or both throw the same exception, and leave the generator
    in the same state. *)
Theorem solve_outcome_independent_of_payoff
  (slv : t) (p q : Payoff) (g : G) :
  match solve (with_payoff slv p) g, solve (with_payoff slv q) g with
  | (Ok _, g1), (Ok _, g2) => g1 = g2
  | (Throw e1, g1), (Throw e2, g2) => e1 = e2 /\ g1 = g2
  | _, _ => False
  end.
Proof.
  unfold solve. cbn [T N M with_payoff].
  destruct (Rleb _ 0); [split; reflexivity |]. unfold bind.
  pose proof (simulations_any_payoff slv p q (T slv / IZR (N slv))
                (Z.to_nat (M slv)) 0 0 0 g) as H.
  destruct (simulations (with_payoff slv p) _ _ _ _ g) as [[va | ea] ga];
    destruct (simulations (with_payoff slv q) _ _ _ _ g) as [[vb | eb] gb];
    exact H.
Qed.

End Dependence.

(** ** The builder and the mediator *)

Section Assembly.
Context {G : Type} {gen : RNG G}.
Import SimulationBuilder.

Lemma conditions_check (s0 t_ : R) (n m : Z) :
  Rleb s0 0 || Rleb t_ 0 || (n <=? 0)%Z || (m <=? 0)%Z = false <->
  0 < s0 /\ 0 < t_ /\ (0 < n)%Z /\ (0 < m)%Z.
Proof.
  rewrite !orb_false_iff, !Rleb_false, !Z.leb_gt. tauto.
Qed.

(** One setter call: what it does to the builder. *)
Ltac one_call c :=
  destruct c as [[?s |] | [?f |] | [?r |] | [?p |] | ?s0 ?t_ ?n ?m];
  cbn [do_call]; unfold setSDE, setFDM, setRNG, setPayoff,
    setInitialCondition; cbn [is_null];
  try match goal with
    | |- context [Rleb ?a 0 || Rleb ?b 0 || (?c <=? 0)%Z || (?d <=? 0)%Z] =>
        let E := fresh "E" in
        destruct (Rleb a 0 || Rleb b 0 || (c <=? 0)%Z || (d <=? 0)%Z) eqn:E
    end.

Ltac logic :=
  cbn [In sde fdm SimulationBuilder.rng payoff S0 T N M is_null];
  split; intros H;
  repeat match goal with
    | H : _ \/ _ |- _ => destruct H as [H | H]
    | H : exists _, _ |- _ => destruct H as [? H]
    | H : _ /\ _ |- _ => destruct H as [? H]
    | H : False |- _ => destruct H
    end;
  try discriminate; eauto 8.

Lemma after_calls_sde (cs : list call) :
  forall b : @t G,
    is_null (sde (after_calls b cs)) = false <->
    is_null (sde b) = false \/ exists s, In (call_setSDE (Some s)) cs.
Proof.
  induction cs as [| c cs IH]; intros b; cbn [after_calls].
  - logic.
  - one_call c; rewrite IH; logic.
Qed.

Lemma after_calls_fdm (cs : list call) :
  forall b : @t G,
    is_null (fdm (after_calls b cs)) = false <->
    is_null (fdm b) = false \/ exists f, In (call_setFDM (Some f)) cs.
Proof.
  induction cs as [| c cs IH]; intros b; cbn [after_calls].
  - logic.
  - one_call c; rewrite IH; logic.
Qed.

Lemma after_calls_rng (cs : list call) :
  forall b : @t G,
    is_null (SimulationBuilder.rng (after_calls b cs)) = false <->
    is_null (SimulationBuilder.rng b) = false \/
    exists r, In (call_setRNG (Some r)) cs.
Proof.
  induction cs as [| c cs IH]; intros b; cbn [after_calls].
  - logic.
  - one_call c; rewrite IH; logic.
Qed.

Lemma after_calls_payoff (cs : list call) :
  forall b : @t G,
    is_null (payoff (after_calls b cs)) = false <->
    is_null (payoff b) = false \/ exists p, In (call_setPayoff (Some p)) cs.
Proof.
  induction cs as [| c cs IH]; intros b; cbn [after_calls].
  - logic.
  - one_call c; rewrite IH; logic.
Qed.

Lemma after_calls_conditions (cs : list call) :
  forall b : @t G,
    conditions_set (after_calls b cs) <->
    conditions_set b \/
    exists s0 t_ n m,
      In (call_setInitialCondition s0 t_ n m) cs /\
      0 < s0 /\ 0 < t_ /\ (0 < n)%Z /\ (0 < m)%Z.
Proof.
  induction cs as [| c cs IH]; intros b; cbn [after_calls].
  - logic.
  - one_call c; rewrite IH; unfold conditions_set;
      cbn [In sde fdm SimulationBuilder.rng payoff S0 T N M].
    all: try match goal with
      | E : _ || _ || _ || _ = false |- _ => apply conditions_check in E
      | E : Rleb ?s0 0 || Rleb ?t_ 0 || (?n <=? 0)%Z || (?m <=? 0)%Z = true
        |- _ =>
          assert (Hbad : ~ (0 < s0 /\ 0 < t_ /\ (0 < n)%Z /\ (0 < m)%Z))
            by (rewrite <- conditions_check, E; discriminate);
          clear E
      end.
    all: split; intros H.
    all: repeat match goal with
      | H : _ \/ _ |- _ => destruct H as [H | H]
      | H : exists _, _ |- _ => destruct H as [? H]
      | H : _ /\ _ |- _ => destruct H as [? H]
      | H : call_setInitialCondition _ _ _ _ = _ |- _ =>
          injection H as -> -> -> ->
      end.
    all: try discriminate; try tauto.
    all: try (right; do 4 eexists; split; [right; eassumption | tauto]).
    all: try (right; do 4 eexists; split; [eassumption | tauto]).
    all: try (right; do 4 eexists; split; [left; reflexivity | tauto]).
Qed.

Lemma build_ok_iff (b : @t G) :
  (exists cfg, build b = Ok cfg) <->
  is_null (sde b) = false /\ is_null (fdm b) = false /\
  is_null (SimulationBuilder.rng b) = false /\
  is_null (payoff b) = false /\ conditions_set b.
Proof.
  unfold build, conditions_set.
  destruct (is_null (sde b)), (is_null (fdm b)),
    (is_null (SimulationBuilder.rng b)), (is_null (payoff b)); cbn [orb];
    try (split; [intros [? H]; discriminate | intros H; decompose [and] H;
                 discriminate]).
  destruct (Rleb (S0 b) 0 || Rleb (T b) 0 || (N b <=? 0)%Z || (M b <=? 0)%Z)
    eqn:E.
  - split; [intros [? H]; discriminate |].
    intros (_ & _ & _ & _ & H). apply conditions_check in H. congruence.
  - apply conditions_check in E. split; [tauto | eauto].
Qed.

(** X21.  The setters may come in any order and any number, and a
    call that throws does no harm: [build] returns after a sequence of
    setter calls on a fresh builder exactly when the sequence holds a
    non-null call of each of the four component setters and a call of
    [setInitialCondition] with four positive values. *)
Theorem build_returns_iff_all_set (cs : list call) :
  (exists cfg : config G, build (after_calls new cs) = Ok cfg) <->
  (exists s, In (call_setSDE (Some s)) cs) /\
  (exists f, In (call_setFDM (Some f)) cs) /\
  (exists r, In (call_setRNG (Some r)) cs) /\
  (exists p, In (call_setPayoff (Some p)) cs) /\
  (exists s0 t_ n m,
     In (call_setInitialCondition s0 t_ n m) cs /\
     0 < s0 /\ 0 < t_ /\ (0 < n)%Z /\ (0 < m)%Z).
Proof.
  rewrite build_ok_iff, after_calls_sde, after_calls_fdm, after_calls_rng,
    after_calls_payoff, after_calls_conditions.
  unfold conditions_set. cbn [new sde fdm SimulationBuilder.rng payoff
                               S0 T N M is_null].
  split.
  - intros ([H1 | H1] & [H2 | H2] & [H3 | H3] & [H4 | H4] & [H5 | H5]);
      try discriminate; try lra. auto.
  - intros (H1 & H2 & H3 & H4 & H5). auto 10.
Qed.

End Assembly.

Section Mediation.
Context {G : Type} {gen : RNG G}.

Lemma mediator_constructed (b : @SimulationBuilder.t G) (m : MCMediator.t) :
  MCMediator.new b = Ok m -> MCSolver.constructed (MCMediator.solver m).
Proof.
  unfold MCMediator.new.
  destruct (SimulationBuilder.build b) as [cfg | e]; [| discriminate].
  destruct cfg as [[[[[[[[s |] [f |]] [r |]] [p |]] S0] T] N] M];
    cbn [MCSolver_ctor]; try discriminate.
  destruct (MCSolver.new _) as [slv | e] eqn:E; [| discriminate].
  intros H. injection H as <-. cbn [MCMediator.solver].
  unfold MCSolver.constructed. unfold MCSolver.new in E |- *.
  destruct (_ || _ || _ || _) eqn:E2 in E; [discriminate |].
  injection E as <-. cbn [MCSolver.S0 MCSolver.T MCSolver.N MCSolver.M] in *.
  now rewrite E2.
Qed.

(** X22.  A mediator is made exactly when [build] returns: its solver
    then holds what the builder held and is a constructed solver, and
    when [build] throws, the mediator's constructor throws the same
    exception.  The checks in the constructor of [MCSolver] can never
    fire behind a builder. *)
Theorem mediator_made_iff_build_returns (b : @SimulationBuilder.t G) :
  match MCMediator.new b with
  | Ok m =>
      SimulationBuilder.build b
      = Ok (Some (MCSolver.sde (MCMediator.solver m)),
            Some (MCSolver.fdm (MCMediator.solver m)),
            Some (MCMediator.generator m),
            Some (MCSolver.payoff (MCMediator.solver m)),
            MCSolver.S0 (MCMediator.solver m),
            MCSolver.T (MCMediator.solver m),
            MCSolver.N (MCMediator.solver m),
            MCSolver.M (MCMediator.solver m)) /\
      MCSolver.constructed (MCMediator.solver m)
  | Throw e => SimulationBuilder.build b = Throw e
  end.
Proof.
  unfold MCMediator.new, SimulationBuilder.build.
  destruct (SimulationBuilder.sde b) as [s |],
    (SimulationBuilder.fdm b) as [f |],
    (SimulationBuilder.rng b) as [r |],
    (SimulationBuilder.payoff b) as [p |]; cbn [is_null orb];
    try reflexivity.
  destruct (Rleb (SimulationBuilder.S0 b) 0 || Rleb (SimulationBuilder.T b) 0
            || (SimulationBuilder.N b <=? 0)%Z
            || (SimulationBuilder.M b <=? 0)%Z) eqn:E; [reflexivity |].
  unfold MCSolver_ctor, MCSolver.constructed, MCSolver.new.
  cbn [MCSolver.S0 MCSolver.T MCSolver.N MCSolver.M].
  rewrite E. cbn [MCMediator.solver MCMediator.generator MCSolver.sde
                  MCSolver.fdm MCSolver.payoff MCSolver.S0 MCSolver.T
                  MCSolver.N MCSolver.M].
  rewrite E. split; reflexivity.
Qed.

Lemma solve_state (slv : MCSolver.t) (g : G) (v : R) (g' : G) :
  MCSolver.constructed slv ->
  MCSolver.solve slv g = (Ok v, g') ->
  g' = skip (Z.to_nat (MCSolver.M slv) * Z.to_nat (MCSolver.N slv)) g.
Proof.
  intros Hc Hrun. rewrite solve_eq in Hrun by assumption.
  destruct (MCSolver.simulations _ _ _ _ _ g) as [[sum | e] g1] eqn:E;
    [| discriminate].
  injection Hrun as _ <-. now apply simulations_state in E.
Qed.

(** X23.  Prices asked of one mediator one after the other are
    computed from consecutive blocks of draws: after a run that
    returned, the solver is unchanged and its generator is [M * N]
    draws further, and the next run is [solve] from there. *)
Theorem mediator_runs_continue_the_draws
  (b : @SimulationBuilder.t G) (m : MCMediator.t) (v : R)
  (m' : MCMediator.t) :
  MCMediator.new b = Ok m ->
  MCMediator.runSimulation m = (Ok v, m') ->
  let slv := MCMediator.solver m in
  let g1 := skip (Z.to_nat (MCSolver.M slv) * Z.to_nat (MCSolver.N slv))
              (MCMediator.generator m) in
  m' = MCMediator.mk slv g1 /\
  MCMediator.runSimulation m'
  = (fst (MCSolver.solve slv g1), MCMediator.mk slv (snd (MCSolver.solve slv g1))).
Proof.
  intros Hnew Hrun slv g1.
  apply mediator_constructed in Hnew. fold slv in Hnew.
  unfold MCMediator.runSimulation in Hrun. fold slv in Hrun.
  destruct (MCSolver.solve slv (MCMediator.generator m)) as [r g'] eqn:E.
  injection Hrun as -> <-.
  apply solve_state in E; [| assumption]. fold g1 in E. subst g'.
  split; [reflexivity |].
  unfold MCMediator.runSimulation. cbn [MCMediator.solver MCMediator.generator].
  now destruct (MCSolver.solve slv g1).
Qed.

End Mediation.

(** ** The stopwatch *)

Section StopWatchFacts.
Variable time_min : Z.
Variable period : R.

Lemma watch_invariant (cs : list StopWatch.call) :
  forall (w : StopWatch.t) (last : Z),
    StopWatch.steady time_min last (StopWatch.readings cs) ->
    (StopWatch.startTime w = time_min \/ StopWatch.startTime w <= last)%Z ->
    (StopWatch.startTime w = time_min \/ StopWatch.endTime w = time_min \/
     StopWatch.startTime w <= StopWatch.endTime w)%Z ->
    let w' := StopWatch.after_calls time_min w cs in
    (StopWatch.startTime w' = time_min \/ StopWatch.endTime w' = time_min \/
     StopWatch.startTime w' <= StopWatch.endTime w')%Z.
Proof.
  induction cs as [| c cs IH]; intros w last Hs H1 H2; [exact H2 |].
  unfold StopWatch.after_calls in *. cbn [fold_left].
  destruct c as [now | now |]; cbn [StopWatch.readings StopWatch.steady] in Hs.
  - destruct Hs as (Hmin & Hlast & Hs).
    apply (IH _ now Hs); cbn [StopWatch.do_call StopWatch.StartStopWatch
                               StopWatch.startTime StopWatch.endTime]; lia.
  - destruct Hs as (Hmin & Hlast & Hs).
    apply (IH _ now Hs); cbn [StopWatch.do_call StopWatch.StopStopWatch
                               StopWatch.startTime StopWatch.endTime]; lia.
  - apply (IH _ last Hs); cbn [StopWatch.do_call StopWatch.Reset
                                StopWatch.startTime StopWatch.endTime]; lia.
Qed.

(** X24.  Read on a steady clock, a stopwatch never shows a negative
    time, whatever the order in which it was started, stopped and
    reset: a start clears the stop time, so a stop time that is set was
    read after the start time. *)
Theorem stopwatch_time_never_negative
  (cs : list StopWatch.call) (first : Z) :
  0 <= period ->
  StopWatch.steady time_min first (StopWatch.readings cs) ->
  0 <= StopWatch.GetTime time_min period
         (StopWatch.after_calls time_min (StopWatch.new time_min) cs).
Proof.
  intros Hp Hs.
  pose proof (watch_invariant cs (StopWatch.new time_min) first Hs
                (or_introl eq_refl) (or_introl eq_refl)) as H.
  cbv zeta in H. unfold StopWatch.GetTime.
  destruct (Z.eqb_spec (StopWatch.startTime
              (StopWatch.after_calls time_min (StopWatch.new time_min) cs))
              time_min) as [E1 | E1]; [cbn [orb]; lra |].
  destruct (Z.eqb_spec (StopWatch.endTime
              (StopWatch.after_calls time_min (StopWatch.new time_min) cs))
              time_min) as [E2 | E2]; cbn [orb]; [lra |].
  apply Rmult_le_pos; [| assumption].
  apply IZR_le. lia.
Qed.

(** X25.  A stopwatch shows the time from its last start to its last
    stop after that start, in seconds, and 0 whenever such a pair is
    missing: after a start that no stop has followed, and after a
    reset. *)
Theorem stopwatch_measures_start_to_stop
  (w : StopWatch.t) (t0 t1 t2 : Z) :
  (time_min < t0)%Z -> (time_min < t1)%Z -> (time_min < t2)%Z ->
  let started := StopWatch.StartStopWatch time_min w t0 in
  let stopped := StopWatch.StopStopWatch started t1 in
  StopWatch.GetTime time_min period started = 0 /\
  StopWatch.GetTime time_min period stopped = IZR (t1 - t0) * period /\
  StopWatch.GetTime time_min period (StopWatch.StopStopWatch stopped t2)
  = IZR (t2 - t0) * period /\
  StopWatch.GetTime time_min period
    (StopWatch.StartStopWatch time_min stopped t2) = 0 /\
  StopWatch.GetTime time_min period (StopWatch.Reset time_min stopped) = 0 /\
  StopWatch.GetTime time_min period
    (StopWatch.StopStopWatch (StopWatch.Reset time_min stopped) t2) = 0.
Proof.
  intros H0 H1 H2. unfold StopWatch.GetTime. cbn.
  rewrite !Z.eqb_refl.
  destruct (Z.eqb_spec t0 time_min); [lia |].
  destruct (Z.eqb_spec t1 time_min); [lia |].
  destruct (Z.eqb_spec t2 time_min); [lia |].
  cbn. repeat split; reflexivity.
Qed.

End StopWatchFacts.

(** ** Scenarios, continued *)

(** The builder of the scenario, with four recorded draws. *)
Lemma demo_builder_mediator :
  MCMediator.new
    (SimulationBuilder.mk (Some (GBM 0.05 0.2))
       (Some (EulerMethod (GBM 0.05 0.2))) (Some [0; 0; 0; 0])
       (Some (EuropeanCall 100)) 100 1 2 1)
  = Ok (MCMediator.mk (demo (EuropeanCall 100)) [0; 0; 0; 0]).
Proof.
  unfold MCMediator.new, SimulationBuilder.build, MCSolver_ctor, new.
  cbn [SimulationBuilder.sde SimulationBuilder.fdm SimulationBuilder.rng
       SimulationBuilder.payoff SimulationBuilder.S0 SimulationBuilder.T
       SimulationBuilder.N SimulationBuilder.M is_null orb S0 T N M].
  change (2 <=? 0)%Z with false. change (1 <=? 0)%Z with false.
  cmp; try lra. cbn [orb]. cbv iota beta.
  cmp; try lra. reflexivity.
Qed.

Lemma solve_outcomes_witness :
  (exists v,
     solve (demo (EuropeanCall 100)) [0; 0]
     = (Ok v, skip (Z.to_nat (M (demo (EuropeanCall 100)))
                    * Z.to_nat (N (demo (EuropeanCall 100)))) [0; 0])) \/
  (exists k,
     (1 <= k <= Z.to_nat (M (demo (EuropeanCall 100)))
                * Z.to_nat (N (demo (EuropeanCall 100))))%nat /\
     solve (demo (EuropeanCall 100)) [0; 0]
     = (Throw NegativeAssetPrice, skip k [0; 0])).
Proof.
  refine (solve_outcomes (demo (EuropeanCall 100)) [0; 0]
            (demo_constructed _) _ _).
  - unfold step_size. cbn [T N demo]. lra.
  - reflexivity.
Defined.

Lemma solve_is_mean_of_simulations_witness :
  exists vs : list R,
    length vs = Z.to_nat (M (demo (EuropeanCall 100))) /\
    (forall i, (i < Z.to_nat (M (demo (EuropeanCall 100))))%nat ->
       fst (simulation_payoff (demo (EuropeanCall 100))
              (step_size (demo (EuropeanCall 100)))
              (skip (i * Z.to_nat (N (demo (EuropeanCall 100)))) [0; 0]))
       = Ok (nth i vs 0)) /\
    5.0625 = fold_left Rplus vs 0 / IZR (M (demo (EuropeanCall 100))).
Proof.
  exact (solve_is_mean_of_simulations (demo (EuropeanCall 100)) [0; 0]
           5.0625 [] (demo_constructed _) (demo_solve [])).
Defined.

Lemma simulated_path_is_chain_of_steps_witness :
  nth 0 [100; 102.5; 105.0625] 0 = S0 (demo (EuropeanCall 100)) /\
  forall k, (k < Z.to_nat (N (demo (EuropeanCall 100))))%nat ->
    advance (fdm (demo (EuropeanCall 100))) (nth k [100; 102.5; 105.0625] 0)
      (IZR (Z.of_nat k) * step_size (demo (EuropeanCall 100)))
      (step_size (demo (EuropeanCall 100)))
      (sqrt (step_size (demo (EuropeanCall 100)))
       * nth k (draws (Z.to_nat (N (demo (EuropeanCall 100)))) [0; 0]) 0)
    = Ok (nth (Datatypes.S k) [100; 102.5; 105.0625] 0) /\
    Rltb (nth (Datatypes.S k) [100; 102.5; 105.0625] 0) 0 = false.
Proof.
  exact (simulated_path_is_chain_of_steps (demo (EuropeanCall 100)) [0; 0]
           _ _ _ (demo_constructed _) (demo_path _ [])).
Defined.

Lemma simulation_payoff_is_path_form_witness :
  back [100; 102.5; 105.0625] = 105.0625 /\
  simulation_payoff (demo (EuropeanCall 100))
    (step_size (demo (EuropeanCall 100))) [0; 0]
  = (Ok (path_payoff (EuropeanCall 100) [100; 102.5; 105.0625]), []).
Proof.
  exact (simulation_payoff_is_path_form (demo (EuropeanCall 100)) [0; 0]
           _ _ _ (demo_constructed _) (demo_path _ [])).
Defined.

Lemma mediator_runs_continue_the_draws_witness :
  MCMediator.mk (demo (EuropeanCall 100)) [0; 0]
  = MCMediator.mk (demo (EuropeanCall 100))
      (skip (Z.to_nat (M (demo (EuropeanCall 100)))
             * Z.to_nat (N (demo (EuropeanCall 100)))) [0; 0; 0; 0]) /\
  MCMediator.runSimulation (MCMediator.mk (demo (EuropeanCall 100)) [0; 0])
  = (fst (solve (demo (EuropeanCall 100))
            (skip (Z.to_nat (M (demo (EuropeanCall 100)))
                   * Z.to_nat (N (demo (EuropeanCall 100)))) [0; 0; 0; 0])),
     MCMediator.mk (demo (EuropeanCall 100))
       (snd (solve (demo (EuropeanCall 100))
               (skip (Z.to_nat (M (demo (EuropeanCall 100)))
                      * Z.to_nat (N (demo (EuropeanCall 100))))
                  [0; 0; 0; 0])))).
Proof.
  refine (mediator_runs_continue_the_draws _ _ 5.0625 _
            demo_builder_mediator _).
  unfold MCMediator.runSimulation.
  cbn [MCMediator.solver MCMediator.generator].
  now rewrite (demo_solve [0; 0]).
Defined.

Lemma stopwatch_time_never_negative_witness :
  0 <= StopWatch.GetTime (-1000) 0.001
         (StopWatch.after_calls (-1000) (StopWatch.new (-1000))
            [StopWatch.call_Stop 5; StopWatch.call_Start 7;
             StopWatch.call_Stop 12]).
Proof.
  apply (stopwatch_time_never_negative (-1000) 0.001 _ 0).
  - lra.
  - simpl. lia.
Defined.

Lemma stopwatch_measures_start_to_stop_witness :
  StopWatch.GetTime (-1000) 0.001
    (StopWatch.StopStopWatch
       (StopWatch.StartStopWatch (-1000) (StopWatch.new (-1000)) 7) 12)
  = IZR (12 - 7) * 0.001.
Proof.
  apply (stopwatch_measures_start_to_stop (-1000) 0.001
           (StopWatch.new (-1000)) 7 12 20); lia.
Defined.

